(** * Streaming summary ingest of [frontend/app/page.tsx]

    A shallow embedding of [handleSummarize] (page.tsx, lines 13-85): the
    fetch preamble, the [reader.read()] loop that splits every decoded chunk
    into SSE events and lines, the [DONE] / [ERROR] sentinels, the newline
    unescaping, and the [catch] handler.

    JavaScript strings are sequences of UTF-16 code units; a code unit is a
    number ([N]).  A read of the body stream is modelled by the text that
    [decoder.decode(value)] returns for it (for ASCII bytes, the bytes
    themselves), or by the value the read promise rejects with. *)

From Stdlib Require Import String Ascii.
From Stdlib Require Import List NArith Bool Arith Lia.
Import ListNotations.

(** ** JavaScript string primitives used by the handler *)

Module JS.

Definition code_unit := N.
Definition jsstring := list code_unit.

(** A string literal of the source, code unit by code unit. *)
Definition lit (s : string) : jsstring :=
  map N_of_ascii (list_ascii_of_string s).

Definition LF : code_unit := 10%N.
Definition BACKSLASH : code_unit := 92%N.
Definition LOWER_N : code_unit := 110%N.

(** [a === b] on strings. *)
Fixpoint eqb (a b : jsstring) : bool :=
  match a, b with
  | [], [] => true
  | x :: a', y :: b' => N.eqb x y && eqb a' b'
  | _, _ => false
  end.

(** [s.startsWith(prefix)]. *)
Fixpoint startsWith (s prefix : jsstring) {struct prefix} : bool :=
  match prefix with
  | [] => true
  | p :: prefix' =>
      match s with
      | [] => false
      | c :: s' => N.eqb c p && startsWith s' prefix'
      end
  end.

(** [s.slice(n)] for a literal [n >= 0]: the code units from index [n] on,
    the empty string when [s] is shorter than [n]. *)
Definition slice (s : jsstring) (n : nat) : jsstring := skipn n s.

(** Puts one more code unit in front of the first piece of a split. *)
Definition cons_head (c : code_unit) (parts : list jsstring) : list jsstring :=
  match parts with
  | [] => [[c]]
  | h :: r => (c :: h) :: r
  end.

(** [s.split(sep)] for a non-empty separator string: the text is scanned from
    the left, every occurrence of [sep] met ends a piece and the scan resumes
    after it; the last piece is what follows the last separator (possibly
    empty).  [skip] counts the code units of a matched separator that remain
    to be passed over. *)
Fixpoint split_from (sep : jsstring) (skip : nat) (s : jsstring)
  : list jsstring :=
  match s with
  | [] => [[]]
  | c :: tl =>
      match skip with
      | S k => split_from sep k tl
      | O =>
          if startsWith s sep
          then [] :: split_from sep (length sep - 1) tl
          else cons_head c (split_from sep 0 tl)
      end
  end.

Definition split (s sep : jsstring) : list jsstring := split_from sep 0 s.

(** [data.replace(/\\n/g, '\n')]: every backslash directly followed by [n]
    becomes one line feed, scanning from the left. *)
Fixpoint replace_escaped_newlines (s : jsstring) : jsstring :=
  match s with
  | [] => []
  | c :: tl =>
      match tl with
      | d :: tl' =>
          if N.eqb c BACKSLASH && N.eqb d LOWER_N
          then LF :: replace_escaped_newlines tl'
          else c :: replace_escaped_newlines tl
      | [] => [c]
      end
  end.

End JS.

Import JS.

(** ** Literals of the source *)

Definition NL : jsstring := [LF].
Definition NLNL : jsstring := [LF; LF].
Definition DATA_PREFIX : jsstring := lit "data: ".
Definition DONE_SENTINEL : jsstring := lit "[DONE]".
Definition ERROR_SENTINEL : jsstring := lit "[ERROR]".
Definition ESCAPED_NL : jsstring := [BACKSLASH; LOWER_N].

(** ** Environment and observable effects *)

(** A thrown value: an [Error] object with its message, or anything else
    ([err instanceof Error] is false). *)
Inductive thrown : Type :=
| ErrorObj (message : jsstring)
| NonError.

(** One [await reader.read()] that does not report [done]: a chunk, given by
    its decoded text, or a rejection.  After the last element of the list the
    reader reports [done: true]. *)
Inductive read_result : Type :=
| Value (chunk : jsstring)
| Rejected (err : thrown).

(** [await response.json()] on a response that is not ok: a rejection (or a
    value on which reading [detail] throws), or an object whose [detail] is
    falsy ([None]) or truthy with the given string conversion. *)
Inductive json_result : Type :=
| JsonRejected (err : thrown)
| JsonDetail (detail : option jsstring).

Record response : Type := {
  ok : bool;
  json : json_result;
  body : option (list read_result)
}.

Inductive fetch_result : Type :=
| FetchRejected (err : thrown)
| FetchResolved (r : response).

(** The calls the handler makes on its surroundings, in order. *)
Inductive effect : Type :=
| ReaderRead
| SetIsLoading (b : bool)
| SetError (message : jsstring)
| SetSummary (summary : jsstring)
| ConsoleError (err : thrown).

(** How a statement completes. *)
Inductive completion : Type :=
| Normal
| Return
| Throw (err : thrown).

(** The value of [accumulatedSummary], the effects so far, the completion. *)
Definition outcome : Type := (jsstring * list effect * completion)%type.

Definition text_of (o : outcome) : jsstring := fst (fst o).
Definition trace_of (o : outcome) : list effect := snd (fst o).
Definition completion_of (o : outcome) : completion := snd o.

(** Runs [k] after a statement that produced [t] and completed normally. *)
Definition after (t : list effect) (o : outcome) : outcome :=
  (text_of o, t ++ trace_of o, completion_of o).

(** ** The handler *)

(** Body of [for (const line of lines)], lines 57-74. *)
Definition process_line (accumulatedSummary line : jsstring) : outcome :=
  if startsWith line DATA_PREFIX then
    let data := slice line 6 in
    if eqb data DONE_SENTINEL then
      (accumulatedSummary, [SetIsLoading false], Return)
    else if startsWith data ERROR_SENTINEL then
      (accumulatedSummary, [], Throw (ErrorObj (slice data 8)))
    else
      let unescaped := replace_escaped_newlines data in
      let accumulatedSummary' := accumulatedSummary ++ unescaped in
      (accumulatedSummary', [SetSummary accumulatedSummary'], Normal)
  else (accumulatedSummary, [], Normal).

(** [for (const x of xs) body]: the body runs on each element in turn until
    one of them returns or throws. *)
Fixpoint for_of {A : Type} (body : jsstring -> A -> outcome)
  (accumulatedSummary : jsstring) (xs : list A) : outcome :=
  match xs with
  | [] => (accumulatedSummary, [], Normal)
  | x :: rest =>
      match body accumulatedSummary x with
      | (acc, t, Normal) => after t (for_of body acc rest)
      | stopped => stopped
      end
  end.

(** Body of [for (const event of events)], lines 55-75. *)
Definition process_event (accumulatedSummary event : jsstring) : outcome :=
  for_of process_line accumulatedSummary (split event NL).

(** Lines 48-76: what is done with the text of one chunk. *)
Definition process_chunk (accumulatedSummary chunk : jsstring) : outcome :=
  for_of process_event accumulatedSummary (split chunk NLNL).

(** [while (true)], lines 41-77.  A normal completion is the [break] on
    [done]. *)
Fixpoint read_loop (accumulatedSummary : jsstring) (reads : list read_result)
  : outcome :=
  match reads with
  | [] => (accumulatedSummary, [ReaderRead], Normal)
  | Rejected err :: _ => (accumulatedSummary, [ReaderRead], Throw err)
  | Value chunk :: rest =>
      match process_chunk accumulatedSummary chunk with
      | (acc, t, Normal) => after (ReaderRead :: t) (read_loop acc rest)
      | (acc, t, c) => (acc, ReaderRead :: t, c)
      end
  end.

(** Lines 37-79: the reader loop from [accumulatedSummary = ''] and the
    [setIsLoading(false)] that follows a loop left by [break]. *)
Definition ingest (reads : list read_result) : outcome :=
  match read_loop [] reads with
  | (acc, t, Normal) => (acc, t ++ [SetIsLoading false], Normal)
  | stopped => stopped
  end.

Definition FAILED_TO_GENERATE : jsstring := lit "Failed to generate summary".
Definition NO_RESPONSE_BODY : jsstring := lit "No response body".
Definition UNEXPECTED_ERROR : jsstring := lit "An unexpected error occurred".

(** The [try] block, lines 19-79. *)
Definition try_block (fetched : fetch_result) : outcome :=
  match fetched with
  | FetchRejected err => ([], [], Throw err)
  | FetchResolved r =>
      if negb (ok r) then
        match json r with
        | JsonRejected err => ([], [], Throw err)
        | JsonDetail (Some detail) => ([], [], Throw (ErrorObj detail))
        | JsonDetail None => ([], [], Throw (ErrorObj FAILED_TO_GENERATE))
        end
      else
        match body r with
        | None => ([], [], Throw (ErrorObj NO_RESPONSE_BODY))
        | Some reads => ingest reads
        end
  end.

(** [err instanceof Error ? err.message : 'An unexpected error occurred']. *)
Definition message_of (err : thrown) : jsstring :=
  match err with
  | ErrorObj message => message
  | NonError => UNEXPECTED_ERROR
  end.

(** The [catch] block, lines 80-84. *)
Definition catch_block (err : thrown) : list effect :=
  [SetIsLoading false; SetError (message_of err); ConsoleError err].

(** The [try ... catch] statement, lines 18-84. *)
Definition session (fetched : fetch_result) : outcome :=
  match try_block fetched with
  | (acc, t, Throw err) => (acc, t ++ catch_block err, Normal)
  | completed => completed
  end.

Definition after_resets (t : list effect) : list effect :=
  [SetIsLoading true; SetError []; SetSummary []] ++ t.

(** [handleSummarize], lines 13-85: the three resets, then the session.
    The call completes normally when the statement does or returns, and
    [Throw] stands for a rejected promise. *)
Definition handleSummarize (fetched : fetch_result) : outcome :=
  match session fetched with
  | (acc, t, Throw err) => (acc, after_resets t, Throw err)
  | (acc, t, _) => (acc, after_resets t, Normal)
  end.

(** A response that is ok and whose body delivers [reads]. *)
Definition streaming (reads : list read_result) : fetch_result :=
  FetchResolved {| ok := true; json := JsonDetail None; body := Some reads |}.

(** ** Vocabulary of the specification *)

Inductive state : Type :=
| ACTIVE
| DONE
| FAILED.

(** State of the session inside the reader loop, after a line, an event or a
    chunk: the loop goes on, has returned, or has thrown. *)
Definition state_after (o : outcome) : state :=
  match completion_of o with
  | Normal => ACTIVE
  | Return => DONE
  | Throw _ => FAILED
  end.

(** State the session ends in: [FAILED] when the [try] block throws, so that
    the [catch] block runs, [DONE] when it completes, by the [return] of
    line 62 or by reaching line 79. *)
Definition terminal_state (fetched : fetch_result) : state :=
  match completion_of (try_block fetched) with
  | Throw _ => FAILED
  | _ => DONE
  end.

(** The progress callback is the [setSummary] of line 73, the error callback
    the [setError] of line 82. *)
Fixpoint progress_calls (t : list effect) : list jsstring :=
  match t with
  | [] => []
  | SetSummary s :: t' => s :: progress_calls t'
  | _ :: t' => progress_calls t'
  end.

Fixpoint error_calls (t : list effect) : list jsstring :=
  match t with
  | [] => []
  | SetError m :: t' => m :: error_calls t'
  | _ :: t' => error_calls t'
  end.

Fixpoint reads_made (t : list effect) : nat :=
  match t with
  | [] => 0
  | ReaderRead :: t' => S (reads_made t')
  | _ :: t' => reads_made t'
  end.

(** A content payload is neither the [DONE] sentinel nor an error sentinel. *)
Definition is_content (data : jsstring) : bool :=
  negb (eqb data DONE_SENTINEL) && negb (startsWith data ERROR_SENTINEL).

(** The frame the collaborator sends for a payload. *)
Definition frame (payload : jsstring) : jsstring :=
  DATA_PREFIX ++ payload ++ NLNL.

(** The lines the handler visits in a chunk, in order. *)
Definition chunk_lines (chunk : jsstring) : list jsstring :=
  flat_map (fun event => split event NL) (split chunk NLNL).

(** The payloads of the data lines among [lines]. *)
Definition data_payloads (lines : list jsstring) : list jsstring :=
  map (fun line => slice line 6)
      (filter (fun line => startsWith line DATA_PREFIX) lines).

(** The payloads before the first sentinel. *)
Fixpoint content_prefix (payloads : list jsstring) : list jsstring :=
  match payloads with
  | [] => []
  | p :: rest => if is_content p then p :: content_prefix rest else []
  end.

(** The successive values of the accumulated text when the payloads are
    appended one after the other. *)
Fixpoint snapshots (acc : jsstring) (payloads : list jsstring)
  : list jsstring :=
  match payloads with
  | [] => []
  | p :: rest =>
      (acc ++ replace_escaped_newlines p)
        :: snapshots (acc ++ replace_escaped_newlines p) rest
  end.

Definition decoded (payloads : list jsstring) : jsstring :=
  concat (map replace_escaped_newlines payloads).

(** [a] is a prefix of [b]. *)
Definition prefix_of (a b : jsstring) : Prop := exists c, b = a ++ c.

(** Every element of the list extends the one before it, the first one
    extending [acc]. *)
Fixpoint growing (acc : jsstring) (values : list jsstring) : Prop :=
  match values with
  | [] => True
  | v :: rest => prefix_of acc v /\ growing v rest
  end.

(** The payloads of the data lines of a chunk, and of a sequence of chunks. *)
Definition chunk_payloads (chunk : jsstring) : list jsstring :=
  data_payloads (chunk_lines chunk).

Definition stream_payloads (chunks : list jsstring) : list jsstring :=
  flat_map chunk_payloads chunks.

(** The chunks delivered before the first rejected read. *)
Fixpoint chunks_before_rejection (reads : list read_result) : list jsstring :=
  match reads with
  | Value chunk :: rest => chunk :: chunks_before_rejection rest
  | _ => []
  end.

(** Lines 58-73 on a payload: what a data line carrying it does. *)
Definition on_payload (acc data : jsstring) : outcome :=
  process_line acc (DATA_PREFIX ++ data).

(** The effects of reading chunks that carry content only: one read per
    chunk, followed by one progress callback per payload of the chunk. *)
Fixpoint content_trace (acc : jsstring) (chunks : list jsstring)
  : list effect :=
  match chunks with
  | [] => []
  | chunk :: rest =>
      ReaderRead :: map SetSummary (snapshots acc (chunk_payloads chunk))
        ++ content_trace (acc ++ decoded (chunk_payloads chunk)) rest
  end.

(** All the payloads are content. *)
Definition all_content (payloads : list jsstring) : Prop :=
  Forall (fun p => is_content p = true) payloads.

(** The first payload that is not content, if any. *)
Fixpoint first_sentinel (payloads : list jsstring) : option jsstring :=
  match payloads with
  | [] => None
  | p :: rest => if is_content p then first_sentinel rest else Some p
  end.

(** The effects up to the first sentinel, met in the chunk that follows the
    chunks [before], after the payloads [payloads_before] of that chunk. *)
Definition trace_until (before payloads_before : list jsstring)
  : list effect :=
  content_trace [] before
    ++ ReaderRead
    :: map SetSummary
         (snapshots (decoded (stream_payloads before)) payloads_before).

Definition API_QUOTA_PAYLOAD : jsstring := lit "[ERROR] API quota exceeded".
Definition API_QUOTA_MESSAGE : jsstring := lit "API quota exceeded".

(** The chunk is empty or ends with a line feed: the read stops at the end
    of a line. *)
Definition ends_line (chunk : jsstring) : bool := N.eqb (last chunk LF) LF.

Definition nonempty (line : jsstring) : bool :=
  match line with
  | [] => false
  | _ :: _ => true
  end.

(** A valid stream: the frames of content payloads without line feed,
    closed by the frame of the [DONE] sentinel. *)
Definition valid_stream (payloads : list jsstring) (bytes : jsstring) : Prop :=
  all_content payloads /\
  Forall (fun p => ~ In LF p) payloads /\
  bytes = concat (map frame payloads) ++ frame DONE_SENTINEL.

(** Chunking invariance as the specification words it: whatever the split
    of a valid stream into chunks, the final text is the decoded payloads. *)
Definition chunking_invariance : Prop :=
  forall (chunks payloads : list jsstring),
    valid_stream payloads (concat chunks) ->
    text_of (ingest (map Value chunks)) = decoded payloads.

(** The frame of ["hello"] cut after ["data: hel"], then the [DONE] frame. *)
Definition split_frame_chunks : list jsstring :=
  [lit "data: hel"; lit "lo" ++ NLNL; frame DONE_SENTINEL].

(** The two chunks of the example of the specification. *)
Definition test_summary_reads : list read_result :=
  [Value (lit "data: This is " ++ NLNL ++ lit "data: a test summary." ++ NLNL);
   Value (lit "data: [DONE]" ++ NLNL)].

(** The reads of the test "handles successful summarization with streaming"
    of [__tests__/page.test.tsx], lines 39-54: the first chunk carries no
    blank line. *)
Definition page_test_reads : list read_result :=
  [Value (lit "data: This is ");
   Value (lit "data: a test summary." ++ NLNL);
   Value (lit "data: [DONE]" ++ NLNL)].

(** ** The state of the page and what it renders

    [page.tsx], lines 9-11 and 87-134, and the conditions under which
    [SummaryDisplay.tsx] shows its parts. *)

(** The three [useState] cells of [Home]. *)
Record page_state : Type := {
  summary : jsstring;
  isLoading : bool;
  error : jsstring
}.

(** What a call of the handler does to the cells: a setter stores its
    argument, the other effects leave the cells alone. *)
Definition apply_effect (st : page_state) (e : effect) : page_state :=
  match e with
  | SetSummary s =>
      {| summary := s; isLoading := isLoading st; error := error st |}
  | SetIsLoading b =>
      {| summary := summary st; isLoading := b; error := error st |}
  | SetError m =>
      {| summary := summary st; isLoading := isLoading st; error := m |}
  | ReaderRead | ConsoleError _ => st
  end.

Definition run_effects (st : page_state) (t : list effect) : page_state :=
  fold_left apply_effect t st.

(** The cells once [handleSummarize] has completed. *)
Definition state_after_handler (st : page_state) (fetched : fetch_result)
  : page_state :=
  run_effects st (trace_of (handleSummarize fetched)).

(** The parts of [SummaryDisplay] (SummaryDisplay.tsx, lines 34-157) that
    depend on its props: the copy button (line 40), the progress indicator
    with its [currentLength] and [isComplete] props (lines 86-91), the
    loading skeleton or the formatted summary (line 96), the disclaimer
    (line 133). *)
Record display_view : Type := {
  copyButton : bool;
  streamingProgress : option (nat * bool);
  skeleton : bool;
  formattedSummary : option (jsstring * bool);
  disclaimer : bool
}.

Definition SummaryDisplay (summary : jsstring) (isLoading : bool)
  : display_view :=
  {| copyButton := nonempty summary && negb isLoading;
     streamingProgress :=
       if isLoading || nonempty summary
       then Some (length summary, negb isLoading)
       else None;
     skeleton := isLoading && negb (nonempty summary);
     formattedSummary :=
       if isLoading && negb (nonempty summary)
       then None
       else Some (summary, isLoading);
     disclaimer := negb isLoading && nonempty summary |}.

(** What [Home] renders below the form: the error box with its text
    (line 106) and the summary panel (line 126). *)
Record page_view : Type := {
  errorBox : option jsstring;
  summaryPanel : option display_view
}.

Definition Home (st : page_state) : page_view :=
  {| errorBox := if nonempty (error st) then Some (error st) else None;
     summaryPanel :=
       if nonempty (summary st) || isLoading st
       then Some (SummaryDisplay (summary st) (isLoading st))
       else None |}.

(** The values passed to [setIsLoading], in order. *)
Fixpoint loading_calls (t : list effect) : list bool :=
  match t with
  | [] => []
  | SetIsLoading b :: t' => b :: loading_calls t'
  | _ :: t' => loading_calls t'
  end.

(** What [setIsLoading] receives after a statement that completed as [c]
    inside the [try] block: [false] on the [return] of line 62, nothing
    otherwise. *)
Definition loading_on (c : completion) : list bool :=
  match c with
  | Return => [false]
  | _ => []
  end.

Definition CR : code_unit := 13%N.

(** ** White space

    [String.prototype.trim] and the class [\s] of regular expressions use
    the same code units: the white space and the line terminators of
    ECMAScript. *)

Definition isWhiteSpace (c : code_unit) : bool :=
  N.eqb c 9 || N.eqb c 10 || N.eqb c 11 || N.eqb c 12 || N.eqb c 13
  || N.eqb c 32 || N.eqb c 160 || N.eqb c 5760
  || (N.leb 8192 c && N.leb c 8202)
  || N.eqb c 8232 || N.eqb c 8233 || N.eqb c 8239 || N.eqb c 8287
  || N.eqb c 12288 || N.eqb c 65279.

Fixpoint trimStart (s : jsstring) : jsstring :=
  match s with
  | [] => []
  | c :: tl => if isWhiteSpace c then trimStart tl else s
  end.

Fixpoint trimEnd (s : jsstring) : jsstring :=
  match s with
  | [] => []
  | c :: tl =>
      match trimEnd tl with
      | [] => if isWhiteSpace c then [] else [c]
      | kept => c :: kept
      end
  end.

(** [s.trim()]. *)
Definition trim (s : jsstring) : jsstring := trimEnd (trimStart s).

(** [s.split(/\s+/)]: every maximal run of white space ends a piece, the
    pieces before a leading run and after a trailing run being empty.
    [in_run] tells that the code unit before was white space of the run
    being passed over. *)
Fixpoint split_whitespace_from (in_run : bool) (s : jsstring)
  : list jsstring :=
  match s with
  | [] => [[]]
  | c :: tl =>
      if isWhiteSpace c then
        if in_run then split_whitespace_from true tl
        else [] :: split_whitespace_from true tl
      else cons_head c (split_whitespace_from false tl)
  end.

Definition split_whitespace (s : jsstring) : list jsstring :=
  split_whitespace_from false s.

(** [s.length]. *)
Definition strlen (s : jsstring) : N := N.of_nat (length s).

(** ** The word counter of [SummaryDisplay.tsx], lines 17-22 *)

(** [pieces.filter(w => w.length > 0).length]. *)
Definition pieces_with_text (pieces : list jsstring) : nat :=
  length (filter (fun w => N.ltb 0 (strlen w)) pieces).

(** [summary.trim().split(/\s+/).filter(w => w.length > 0).length]. *)
Definition count_words (summary : jsstring) : nat :=
  pieces_with_text (split_whitespace (trim summary)).

(** The effect run when [summary] changes: the counter is set from a
    non-empty summary and left as it is for the empty one. *)
Definition words_effect (wordsGenerated : nat) (summary : jsstring) : nat :=
  if nonempty summary then count_words summary else wordsGenerated.

(** The number of words of a text: the code units that are not white space
    and come first or after white space.  [after_space] tells whether the
    code unit before was white space (or there was none). *)
Fixpoint word_starts (after_space : bool) (s : jsstring) : nat :=
  match s with
  | [] => 0
  | c :: tl =>
      if isWhiteSpace c then word_starts true tl
      else (if after_space then 1 else 0) + word_starts false tl
  end.

(** The list never decreases. *)
Fixpoint nondecreasing (previous : nat) (values : list nat) : Prop :=
  match values with
  | [] => True
  | v :: rest => previous <= v /\ nondecreasing v rest
  end.

(** ** The form of [SummaryForm.tsx] *)

Definition maxChars : N := 50000%N.
Definition minChars : N := 10%N.

Inductive form_effect : Type :=
| PreventDefault
| ToastError (message : jsstring)
| ToastSuccess (message : jsstring)
| OnSummarize (text : jsstring).

Definition TOO_SHORT_MESSAGE : jsstring :=
  lit "Please enter at least 10 characters".

(** The message of line 26; [maxCharsLocale] is the text that
    [maxChars.toLocaleString()] gives in the locale of the browser. *)
Definition too_long_message (maxCharsLocale : jsstring) : jsstring :=
  lit "Text is too long. Maximum " ++ maxCharsLocale
    ++ lit " characters allowed.".

Definition GENERATING_MESSAGE : jsstring := lit "Generating summary...".

(** [handleSubmit], lines 17-32, on the current [text]. *)
Definition handleSubmit (maxCharsLocale text : jsstring)
  : list form_effect :=
  PreventDefault ::
  (if N.ltb (strlen (trim text)) minChars then
     [ToastError TOO_SHORT_MESSAGE]
   else if N.ltb maxChars (strlen (trim text)) then
     [ToastError (too_long_message maxCharsLocale)]
   else
     [ToastSuccess GENERATING_MESSAGE; OnSummarize (trim text)]).

(** Line 58. *)
Definition isTextValid (text : jsstring) : bool :=
  N.leb minChars (strlen (trim text)) && N.leb (strlen (trim text)) maxChars.

(** The two [useState] cells of the form. *)
Record form_state : Type := {
  text : jsstring;
  charCount : N
}.

Definition initial_form : form_state := {| text := []; charCount := 0%N |}.

(** [handleTextChange], lines 34-38, for the new value of the textarea. *)
Definition handleTextChange (newText : jsstring) : form_state :=
  {| text := newText; charCount := strlen newText |}.

(** [handleClear], lines 40-43. *)
Definition handleClear : form_state := {| text := []; charCount := 0%N |}.

Definition exampleText : jsstring :=
  lit "Artificial Intelligence has revolutionized numerous industries in recent years, transforming the way we work, communicate, and solve complex problems. Machine learning algorithms have become increasingly sophisticated, enabling computers to learn from data and make predictions with remarkable accuracy. Deep learning, a subset of machine learning, has led to breakthroughs in image recognition, natural language processing, and autonomous systems.

The impact of AI extends across healthcare, finance, transportation, and entertainment. In healthcare, AI-powered diagnostic tools assist doctors in identifying diseases earlier and more accurately. In finance, algorithmic trading and fraud detection systems leverage AI to process vast amounts of data in real-time. Self-driving cars represent a significant application of AI in transportation, promising to reduce accidents and improve traffic efficiency.

However, the rapid advancement of AI also raises important ethical considerations. Questions about job displacement, privacy, algorithmic bias, and the concentration of AI capabilities among a few large corporations require careful attention. As AI systems become more powerful and ubiquitous, society must grapple with how to ensure these technologies benefit everyone while mitigating potential risks.

Looking ahead, the future of AI appears both promising and challenging. Continued research in areas like explainable AI, federated learning, and quantum machine learning may unlock new possibilities. The key will be developing AI systems that are not only powerful but also trustworthy, transparent, and aligned with human values.".

(** [handleExampleText], lines 45-56. *)
Definition handleExampleText : form_state :=
  {| text := exampleText; charCount := strlen exampleText |}.

(** What the user can do to the form between two submissions. *)
Inductive form_action : Type :=
| Change (newText : jsstring)
| Clear
| LoadExample.

Definition form_step (st : form_state) (a : form_action) : form_state :=
  match a with
  | Change newText => handleTextChange newText
  | Clear => handleClear
  | LoadExample => handleExampleText
  end.

Definition form_after (actions : list form_action) : form_state :=
  fold_left form_step actions initial_form.

(** The warning of lines 102-106, [aria-invalid] of line 89, the Clear
    button of line 108 and [disabled] of the submit button, line 125. *)
Definition minimumWarning (st : form_state) : bool :=
  N.ltb (charCount st) minChars && N.ltb 0 (charCount st).

Definition ariaInvalid (st : form_state) : bool :=
  N.ltb maxChars (charCount st).

Definition clearButton (st : form_state) : bool := nonempty (text st).

Definition submitDisabled (st : form_state) (isLoading : bool) : bool :=
  negb (isTextValid (text st)) || isLoading.

(** ** Lemmas on the string primitives *)

Section StringLemmas.

Lemma eqb_refl (a : jsstring) : eqb a a = true.
Proof.
  induction a as [|x a IH]; simpl; [reflexivity|].
  now rewrite N.eqb_refl, IH.
Qed.

Lemma eqb_eq (a b : jsstring) : eqb a b = true <-> a = b.
Proof.
  split; [|intros ->; apply eqb_refl].
  revert b; induction a as [|x a IH]; intros [|y b]; simpl;
    try discriminate; [reflexivity|].
  intros H. apply andb_prop in H as [Hxy Hab].
  apply N.eqb_eq in Hxy. f_equal; auto.
Qed.

Lemma startsWith_app (p s : jsstring) : startsWith (p ++ s) p = true.
Proof.
  induction p as [|c p IH]; simpl; [reflexivity|].
  now rewrite N.eqb_refl, IH.
Qed.

Lemma startsWith_inv (s p : jsstring) :
  startsWith s p = true -> s = p ++ skipn (length p) s.
Proof.
  revert s; induction p as [|c p IH]; intros s H; simpl in *; [reflexivity|].
  destruct s as [|d s]; [discriminate|].
  apply andb_prop in H as [Hc Hs].
  apply N.eqb_eq in Hc. subst d. simpl. f_equal. now apply IH.
Qed.

Lemma split_nil (sep : jsstring) : split [] sep = [[]].
Proof. reflexivity. Qed.

Lemma split_from_skip (sep pre s : jsstring) :
  split_from sep (length pre) (pre ++ s) = split_from sep 0 s.
Proof.
  induction pre as [|c pre IH]; simpl; [reflexivity | exact IH].
Qed.

Lemma split_sep (sep rest : jsstring) :
  sep <> [] -> split (sep ++ rest) sep = [] :: split rest sep.
Proof.
  destruct sep as [|c sep]; [congruence|]. intros _.
  unfold split. change ((c :: sep) ++ rest) with (c :: (sep ++ rest)).
  cbn [split_from].
  change (c :: sep ++ rest) with ((c :: sep) ++ rest).
  rewrite startsWith_app. f_equal.
  replace (length (c :: sep) - 1) with (length sep) by (simpl; lia).
  apply split_from_skip.
Qed.

Lemma split_no_match (sep : jsstring) (c : code_unit) (tl : jsstring) :
  startsWith (c :: tl) sep = false ->
  split (c :: tl) sep = cons_head c (split tl sep).
Proof.
  intros H. unfold split. cbn [split_from]. now rewrite H.
Qed.

(** A piece without line feed in front of a blank line is one event. *)
Lemma split_NLNL_piece (x rest : jsstring) :
  ~ In LF x -> split (x ++ NLNL ++ rest) NLNL = x :: split rest NLNL.
Proof.
  induction x as [|c x IH]; intros Hx.
  - apply (@split_sep NLNL rest). discriminate.
  - change ((c :: x) ++ NLNL ++ rest) with (c :: (x ++ NLNL ++ rest)).
    rewrite split_no_match.
    + rewrite IH; [reflexivity|]. intros Hin. apply Hx. now right.
    + simpl. destruct (N.eqb_spec c LF) as [->|_]; [|reflexivity].
      exfalso. apply Hx. now left.
Qed.

(** A text without line feed is one line. *)
Lemma split_NL_line (x : jsstring) : ~ In LF x -> split x NL = [x].
Proof.
  induction x as [|c x IH]; intros Hx; [reflexivity|].
  rewrite split_no_match.
  - rewrite IH; [reflexivity|]. intros Hin. apply Hx. now right.
  - simpl. destruct (N.eqb_spec c LF) as [->|_]; [|reflexivity].
    exfalso. apply Hx. now left.
Qed.

(** [split] on the texts the handler meets, as JavaScript computes it. *)
Lemma split_examples :
  split (lit "a" ++ NLNL ++ lit "b") NLNL = [lit "a"; lit "b"] /\
  split (lit "a" ++ NLNL) NLNL = [lit "a"; []] /\
  split (lit "a" ++ NLNL ++ NL ++ lit "b") NLNL = [lit "a"; NL ++ lit "b"] /\
  split (lit "a" ++ NL) NLNL = [lit "a" ++ NL] /\
  split [] NLNL = [[]] /\
  split (lit "a" ++ NL ++ lit "b" ++ NL) NL = [lit "a"; lit "b"; []].
Proof. repeat split. Qed.

(** Absence of line feed, by evaluation. *)
Lemma no_LF_check (s : jsstring) :
  forallb (fun c => negb (N.eqb c LF)) s = true -> ~ In LF s.
Proof.
  intros H Hin. rewrite forallb_forall in H. specialize (H LF Hin).
  now rewrite N.eqb_refl in H.
Qed.

End StringLemmas.

Ltac no_LF := apply no_LF_check; reflexivity.

(** ** Lemmas on the loops *)

Section LoopLemmas.

Lemma after_nil (o : outcome) : after [] o = o.
Proof. now destruct o as [[acc t] c]. Qed.

Lemma after_after (t1 t2 : list effect) (o : outcome) :
  after t1 (after t2 o) = after (t1 ++ t2) o.
Proof.
  destruct o as [[acc t] c]. unfold after, text_of, trace_of, completion_of.
  simpl. now rewrite app_assoc.
Qed.

(** A loop over [xs ++ ys] runs over [xs] and, unless stopped, over [ys]. *)
Lemma for_of_app (A : Type) (body : jsstring -> A -> outcome)
  (xs ys : list A) (acc : jsstring) :
  for_of body acc (xs ++ ys) =
  match for_of body acc xs with
  | (acc', t, Normal) => after t (for_of body acc' ys)
  | stopped => stopped
  end.
Proof.
  revert acc; induction xs as [|x xs IH]; intros acc; simpl.
  - now rewrite after_nil.
  - destruct (body acc x) as [[acc1 t1] [| |e]]; try reflexivity.
    rewrite IH.
    destruct (for_of body acc1 xs) as [[acc2 t2] [| |e]]; try reflexivity.
    now rewrite after_after.
Qed.

(** Two nested loops visit the elements of the inner lists in order. *)
Lemma for_of_flat_map (A B : Type) (body : jsstring -> B -> outcome)
  (f : A -> list B) (xs : list A) (acc : jsstring) :
  for_of (fun a x => for_of body a (f x)) acc xs =
  for_of body acc (flat_map f xs).
Proof.
  revert acc; induction xs as [|x xs IH]; intros acc; simpl; [reflexivity|].
  rewrite for_of_app.
  destruct (for_of body acc (f x)) as [[acc1 t1] [| |e]]; try reflexivity.
  now rewrite IH.
Qed.

Lemma process_chunk_lines (acc chunk : jsstring) :
  process_chunk acc chunk = for_of process_line acc (chunk_lines chunk).
Proof. apply for_of_flat_map. Qed.

(** What line 58 extracts from a data line. *)
Lemma data_line_payload (data : jsstring) :
  startsWith (DATA_PREFIX ++ data) DATA_PREFIX = true /\
  slice (DATA_PREFIX ++ data) 6 = data.
Proof. split; [apply startsWith_app | reflexivity]. Qed.

Lemma process_line_content (acc data : jsstring) :
  is_content data = true ->
  process_line acc (DATA_PREFIX ++ data) =
  (acc ++ replace_escaped_newlines data,
   [SetSummary (acc ++ replace_escaped_newlines data)], Normal).
Proof.
  intros H. unfold process_line.
  destruct (data_line_payload data) as [-> ->].
  unfold is_content in H. apply andb_prop in H as [H1 H2].
  apply negb_true_iff in H1, H2. now rewrite H1, H2.
Qed.

Lemma process_line_done (acc : jsstring) :
  process_line acc (DATA_PREFIX ++ DONE_SENTINEL) =
  (acc, [SetIsLoading false], Return).
Proof. reflexivity. Qed.

Lemma process_line_error (acc rest : jsstring) :
  process_line acc (DATA_PREFIX ++ ERROR_SENTINEL ++ rest) =
  (acc, [], Throw (ErrorObj (slice rest 1))).
Proof. reflexivity. Qed.

Lemma process_line_other (acc line : jsstring) :
  startsWith line DATA_PREFIX = false ->
  process_line acc line = (acc, [], Normal).
Proof. intros H. unfold process_line. now rewrite H. Qed.

End LoopLemmas.

(** ** Payload view of the loops *)

Section PayloadLemmas.

Lemma data_payloads_app (xs ys : list jsstring) :
  data_payloads (xs ++ ys) = data_payloads xs ++ data_payloads ys.
Proof. unfold data_payloads. now rewrite filter_app, map_app. Qed.

Lemma decoded_app (xs ys : list jsstring) :
  decoded (xs ++ ys) = decoded xs ++ decoded ys.
Proof. unfold decoded. now rewrite map_app, concat_app. Qed.

Lemma snapshots_app (xs ys : list jsstring) (acc : jsstring) :
  snapshots acc (xs ++ ys) =
  snapshots acc xs ++ snapshots (acc ++ decoded xs) ys.
Proof.
  revert acc; induction xs as [|x xs IH]; intros acc; simpl.
  - now rewrite app_nil_r.
  - rewrite IH. unfold decoded. simpl. now rewrite app_assoc.
Qed.

Lemma progress_calls_app (t1 t2 : list effect) :
  progress_calls (t1 ++ t2) = progress_calls t1 ++ progress_calls t2.
Proof.
  induction t1 as [|e t1 IH]; simpl; [reflexivity|].
  destruct e; simpl; now rewrite IH.
Qed.

Lemma error_calls_app (t1 t2 : list effect) :
  error_calls (t1 ++ t2) = error_calls t1 ++ error_calls t2.
Proof.
  induction t1 as [|e t1 IH]; simpl; [reflexivity|].
  destruct e; simpl; now rewrite IH.
Qed.

Lemma reads_made_app (t1 t2 : list effect) :
  reads_made (t1 ++ t2) = reads_made t1 + reads_made t2.
Proof.
  induction t1 as [|e t1 IH]; simpl; [reflexivity|].
  destruct e; simpl; now rewrite IH.
Qed.

Lemma progress_calls_SetSummary (values : list jsstring) :
  progress_calls (map SetSummary values) = values.
Proof. induction values as [|v values IH]; simpl; now rewrite ?IH. Qed.

Lemma error_calls_SetSummary (values : list jsstring) :
  error_calls (map SetSummary values) = [].
Proof. induction values as [|v values IH]; simpl; now rewrite ?IH. Qed.

Lemma reads_made_SetSummary (values : list jsstring) :
  reads_made (map SetSummary values) = 0.
Proof. induction values as [|v values IH]; simpl; now rewrite ?IH. Qed.

(** The loop over the lines is the loop over the payloads of the data
    lines. *)
Lemma for_lines_payloads (lines : list jsstring) (acc : jsstring) :
  for_of process_line acc lines = for_of on_payload acc (data_payloads lines).
Proof.
  revert acc; induction lines as [|line lines IH]; intros acc;
    [reflexivity|].
  unfold data_payloads. cbn [for_of filter].
  destruct (startsWith line DATA_PREFIX) eqn:Hd.
  - cbn [map for_of]. unfold on_payload.
    change 6 with (length DATA_PREFIX). unfold slice.
    rewrite <- (startsWith_inv _ _ Hd).
    destruct (process_line acc line) as [[acc1 t1] [| |e]]; try reflexivity.
    now rewrite IH.
  - rewrite (process_line_other acc _ Hd). now rewrite after_nil, IH.
Qed.

Lemma process_chunk_payloads (acc chunk : jsstring) :
  process_chunk acc chunk = for_of on_payload acc (chunk_payloads chunk).
Proof. rewrite process_chunk_lines. apply for_lines_payloads. Qed.

(** Content payloads are appended one by one. *)
Lemma for_payloads_content (payloads : list jsstring) (acc : jsstring) :
  all_content payloads ->
  for_of on_payload acc payloads =
  (acc ++ decoded payloads, map SetSummary (snapshots acc payloads), Normal).
Proof.
  intros H; revert acc; induction H as [|p ps Hp Hps IH]; intros acc.
  - simpl. unfold decoded. simpl. now rewrite app_nil_r.
  - cbn [for_of]. unfold on_payload at 1.
    rewrite (process_line_content acc p Hp), IH.
    unfold after, decoded. simpl. now rewrite app_assoc.
Qed.

Lemma on_payload_sentinel (acc data : jsstring) :
  is_content data = false ->
  on_payload acc data = (acc, [SetIsLoading false], Return) \/
  exists err, on_payload acc data = (acc, [], Throw err).
Proof.
  intros H. unfold on_payload, process_line.
  destruct (data_line_payload data) as [-> ->].
  unfold is_content in H.
  destruct (eqb data DONE_SENTINEL); [now left|].
  destruct (startsWith data ERROR_SENTINEL); [right; eauto | discriminate].
Qed.

End PayloadLemmas.

(** ** The reader loop on content and on sentinels *)

Section ReaderLemmas.

Lemma for_payloads_sentinel (before after_ : list jsstring)
  (data acc : jsstring) :
  all_content before ->
  is_content data = false ->
  for_of on_payload acc (before ++ data :: after_) =
  after (map SetSummary (snapshots acc before))
        (on_payload (acc ++ decoded before) data).
Proof.
  intros Hb Hd. rewrite for_of_app, (for_payloads_content _ acc Hb).
  cbn [for_of].
  destruct (on_payload_sentinel (acc ++ decoded before) _ Hd) as [->|[e ->]];
    reflexivity.
Qed.

Lemma content_prefix_all (payloads : list jsstring) :
  all_content (content_prefix payloads).
Proof.
  induction payloads as [|p ps IH]; simpl; [constructor|].
  destruct (is_content p) eqn:Hp; constructor; assumption.
Qed.

(** A list of payloads is its content prefix, possibly followed by a first
    sentinel and what comes after it. *)
Lemma content_prefix_split (payloads : list jsstring) :
  payloads = content_prefix payloads \/
  exists data rest,
    payloads = content_prefix payloads ++ data :: rest /\
    is_content data = false.
Proof.
  induction payloads as [|p ps IH]; simpl; [now left|].
  destruct (is_content p) eqn:Hp.
  - destruct IH as [IH|(d & r & IH & Hd)].
    + left. now f_equal.
    + right. exists d, r. split; [simpl; now f_equal | exact Hd].
  - right. exists p, ps. now split.
Qed.

Lemma content_prefix_app (xs ys : list jsstring) :
  all_content xs -> content_prefix (xs ++ ys) = xs ++ content_prefix ys.
Proof.
  induction 1 as [|x xs Hx Hxs IH]; simpl; [reflexivity|].
  now rewrite Hx, IH.
Qed.

Lemma content_prefix_stop (xs ys : list jsstring) (data : jsstring) :
  all_content xs -> is_content data = false ->
  content_prefix (xs ++ data :: ys) = xs.
Proof.
  intros Hxs Hd. rewrite (content_prefix_app _ _ Hxs). simpl.
  now rewrite Hd, app_nil_r.
Qed.

Lemma content_prefix_id (xs : list jsstring) :
  all_content xs -> content_prefix xs = xs.
Proof.
  intros H. rewrite <- (app_nil_r xs) at 1.
  rewrite (content_prefix_app _ _ H). apply app_nil_r.
Qed.

Lemma stream_payloads_app (xs ys : list jsstring) :
  stream_payloads (xs ++ ys) = stream_payloads xs ++ stream_payloads ys.
Proof. apply flat_map_app. Qed.

(** Chunks that carry content only leave the loop running. *)
Lemma read_loop_content (before : list jsstring) (rest : list read_result)
  (acc : jsstring) :
  all_content (stream_payloads before) ->
  read_loop acc (map Value before ++ rest) =
  after (content_trace acc before)
        (read_loop (acc ++ decoded (stream_payloads before)) rest).
Proof.
  revert acc; induction before as [|chunk before IH]; intros acc H.
  - simpl. unfold decoded. simpl. now rewrite app_nil_r, after_nil.
  - cbn [stream_payloads flat_map] in H. apply Forall_app in H as [Hc Hb].
    cbn [map app read_loop].
    rewrite process_chunk_payloads, (for_payloads_content _ acc Hc).
    rewrite (IH _ Hb), after_after.
    cbn [stream_payloads flat_map content_trace].
    now rewrite decoded_app, app_assoc.
Qed.

(** The chunk in which the first sentinel is met ends the loop. *)
Lemma read_loop_sentinel (chunk data : jsstring) (rest : list read_result)
  (before after_ : list jsstring) (acc : jsstring) :
  chunk_payloads chunk = before ++ data :: after_ ->
  all_content before ->
  is_content data = false ->
  read_loop acc (Value chunk :: rest) =
  after (ReaderRead :: map SetSummary (snapshots acc before))
        (on_payload (acc ++ decoded before) data).
Proof.
  intros Hc Hb Hd. cbn [read_loop].
  rewrite process_chunk_payloads, Hc, (for_payloads_sentinel _ _ _ _ Hb Hd).
  destruct (on_payload_sentinel (acc ++ decoded before) _ Hd) as [->|[e ->]];
    reflexivity.
Qed.

Lemma content_trace_progress (chunks : list jsstring) (acc : jsstring) :
  progress_calls (content_trace acc chunks) =
  snapshots acc (stream_payloads chunks).
Proof.
  revert acc; induction chunks as [|c cs IH]; intros acc; [reflexivity|].
  cbn [content_trace progress_calls stream_payloads flat_map].
  now rewrite progress_calls_app, progress_calls_SetSummary, IH,
    snapshots_app.
Qed.

Lemma content_trace_errors (chunks : list jsstring) (acc : jsstring) :
  error_calls (content_trace acc chunks) = [].
Proof.
  revert acc; induction chunks as [|c cs IH]; intros acc; [reflexivity|].
  cbn [content_trace error_calls].
  now rewrite error_calls_app, error_calls_SetSummary, IH.
Qed.

Lemma content_trace_reads (chunks : list jsstring) (acc : jsstring) :
  reads_made (content_trace acc chunks) = length chunks.
Proof.
  revert acc; induction chunks as [|c cs IH]; intros acc; [reflexivity|].
  cbn [content_trace reads_made length].
  now rewrite reads_made_app, reads_made_SetSummary, IH.
Qed.

(** The progress callbacks of the loop, whatever the reads. *)
Lemma read_loop_progress (reads : list read_result) (acc : jsstring) :
  progress_calls (trace_of (read_loop acc reads)) =
  snapshots acc
    (content_prefix (stream_payloads (chunks_before_rejection reads))) /\
  text_of (read_loop acc reads) =
  acc ++ decoded
    (content_prefix (stream_payloads (chunks_before_rejection reads))).
Proof.
  revert acc; induction reads as [|[chunk|err] reads IH]; intros acc.
  - simpl. unfold decoded. simpl. now rewrite app_nil_r.
  - cbn [chunks_before_rejection].
    change (stream_payloads (chunk :: chunks_before_rejection reads))
      with (chunk_payloads chunk
              ++ stream_payloads (chunks_before_rejection reads)).
    destruct (content_prefix_split (chunk_payloads chunk))
      as [Hall|(d & r & Hsplit & Hd)].
    + assert (Hc : all_content (chunk_payloads chunk))
        by (rewrite Hall; apply content_prefix_all).
      rewrite (content_prefix_app _ _ Hc).
      cbn [read_loop].
      rewrite process_chunk_payloads, (for_payloads_content _ acc Hc).
      destruct (IH (acc ++ decoded (chunk_payloads chunk))) as [IHp IHt].
      unfold after, trace_of, text_of in *. cbn [fst snd].
      cbn [app progress_calls].
      rewrite progress_calls_app, progress_calls_SetSummary, IHp, IHt.
      now rewrite snapshots_app, decoded_app, app_assoc.
    + pose proof (content_prefix_all (chunk_payloads chunk)) as Hc.
      assert (E : content_prefix
                    (chunk_payloads chunk
                       ++ stream_payloads (chunks_before_rejection reads))
                  = content_prefix (chunk_payloads chunk)).
      { rewrite Hsplit at 1. rewrite <- app_assoc. cbn [app].
        apply content_prefix_stop; assumption. }
      rewrite E, (read_loop_sentinel _ _ reads _ _ acc Hsplit Hc Hd).
      destruct (on_payload_sentinel
                  (acc ++ decoded (content_prefix (chunk_payloads chunk))) _ Hd)
        as [->|[e ->]];
        unfold after, trace_of, text_of; cbn [fst snd app progress_calls];
        rewrite progress_calls_app, progress_calls_SetSummary;
        cbn [progress_calls]; now rewrite app_nil_r.
  - simpl. unfold decoded. simpl. now rewrite app_nil_r.
Qed.

End ReaderLemmas.

(** ** Frames *)

Section FrameLemmas.

Lemma DATA_PREFIX_no_LF (payload : jsstring) :
  ~ In LF payload -> ~ In LF (DATA_PREFIX ++ payload).
Proof.
  intros Hp Hin. apply in_app_or in Hin as [Hin|Hin]; [|now apply Hp].
  vm_compute in Hin. repeat (destruct Hin as [Hin|Hin]; [discriminate|]).
  exact Hin.
Qed.

(** A frame at the head of a chunk is one event of one line. *)
Lemma chunk_lines_frame (payload rest : jsstring) :
  ~ In LF payload ->
  chunk_lines (frame payload ++ rest) =
  (DATA_PREFIX ++ payload) :: chunk_lines rest.
Proof.
  intros Hp. apply DATA_PREFIX_no_LF in Hp. unfold chunk_lines, frame.
  replace ((DATA_PREFIX ++ payload ++ NLNL) ++ rest)
    with ((DATA_PREFIX ++ payload) ++ NLNL ++ rest)
    by now rewrite <- !app_assoc.
  rewrite (split_NLNL_piece _ _ Hp). cbn [flat_map].
  now rewrite (split_NL_line _ Hp).
Qed.

Lemma chunk_payloads_frame (payload rest : jsstring) :
  ~ In LF payload ->
  chunk_payloads (frame payload ++ rest) = payload :: chunk_payloads rest.
Proof.
  intros Hp. unfold chunk_payloads. rewrite (chunk_lines_frame _ _ Hp).
  unfold data_payloads. cbn [filter].
  destruct (data_line_payload payload) as [-> E]. cbn [map]. now rewrite E.
Qed.

Lemma chunk_payloads_nil : chunk_payloads [] = [].
Proof. reflexivity. Qed.

(** A chunk made of whole frames carries their payloads. *)
Lemma chunk_payloads_frames (payloads : list jsstring) :
  Forall (fun p => ~ In LF p) payloads ->
  chunk_payloads (concat (map frame payloads)) = payloads.
Proof.
  induction 1 as [|p ps Hp Hps IH]; [reflexivity|].
  cbn [map concat]. now rewrite (chunk_payloads_frame _ _ Hp), IH.
Qed.

End FrameLemmas.

(** ** Lines of a chunk *)

Section LineLemmas.

Lemma split_nonempty (s sep : jsstring) : split s sep <> [].
Proof.
  unfold split. generalize 0 as skip.
  induction s as [|c s IH]; intros skip; cbn [split_from]; [discriminate|].
  destruct skip as [|k]; [|apply IH].
  destruct (startsWith (c :: s) sep); [discriminate|].
  specialize (IH 0). destruct (split_from sep 0 s); [contradiction|].
  discriminate.
Qed.

Lemma cons_head_app (c : code_unit) (xs ys : list jsstring) :
  xs <> [] -> cons_head c (xs ++ ys) = cons_head c xs ++ ys.
Proof. destruct xs; [contradiction | reflexivity]. Qed.

Lemma split_NL_cons (c : code_unit) (s : jsstring) :
  split (c :: s) NL =
  if N.eqb c LF then [] :: split s NL else cons_head c (split s NL).
Proof.
  destruct (N.eqb_spec c LF) as [->|Hc].
  - apply (split_sep NL s). discriminate.
  - apply split_no_match. simpl.
    destruct (N.eqb_spec c LF); [contradiction | reflexivity].
Qed.

(** The lines of a text cut at a line feed are the lines of its two
    parts. *)
Lemma split_NL_app (a b : jsstring) :
  split (a ++ LF :: b) NL = split a NL ++ split b NL.
Proof.
  induction a as [|c a IH].
  - cbn [app]. now rewrite split_NL_cons.
  - cbn [app]. rewrite !split_NL_cons, IH.
    destruct (N.eqb c LF); [reflexivity|].
    apply cons_head_app, split_nonempty.
Qed.

Lemma chunk_lines_nil : chunk_lines [] = [[]].
Proof. reflexivity. Qed.

Lemma chunk_lines_blank (s : jsstring) :
  chunk_lines (LF :: LF :: s) = [] :: chunk_lines s.
Proof.
  unfold chunk_lines. change (LF :: LF :: s) with (NLNL ++ s).
  rewrite (split_sep NLNL s); [reflexivity|discriminate].
Qed.

Lemma chunk_lines_cons (c : code_unit) (s : jsstring) :
  startsWith (c :: s) NLNL = false ->
  chunk_lines (c :: s) =
  if N.eqb c LF then [] :: chunk_lines s else cons_head c (chunk_lines s).
Proof.
  intros H. unfold chunk_lines. rewrite (split_no_match _ _ _ H).
  pose proof (split_nonempty s NLNL) as Hne.
  destruct (split s NLNL) as [|e es]; [contradiction|].
  cbn [cons_head flat_map]. rewrite split_NL_cons.
  destruct (N.eqb c LF); [reflexivity|].
  symmetry. apply cons_head_app, split_nonempty.
Qed.

(** The events only group the lines: up to empty lines after the first
    one, the lines visited in a chunk are the lines of its text. *)
Lemma chunk_lines_split (s : jsstring) :
  exists first rest_events rest_lines,
    chunk_lines s = first :: rest_events /\
    split s NL = first :: rest_lines /\
    filter nonempty rest_events = filter nonempty rest_lines.
Proof.
  remember (length s) as n eqn:Hn.
  revert s Hn; induction n as [n IH] using lt_wf_ind; intros s Hn.
  destruct s as [|c s]; [now exists [], [], []|].
  destruct (startsWith (c :: s) NLNL) eqn:Hm.
  - apply startsWith_inv in Hm. cbn [length NLNL skipn app] in Hm.
    destruct s as [|d s]; [discriminate|]. injection Hm as -> ->.
    destruct (IH (length s)) with (s := s)
      as (h & t1 & t2 & H1 & H2 & H3);
      [simpl in Hn; lia | reflexivity |].
    exists [], (h :: t1), ([] :: h :: t2).
    rewrite chunk_lines_blank, !split_NL_cons, H1, H2. cbn [N.eqb].
    repeat split. cbn [filter nonempty]. now rewrite H3.
  - destruct (IH (length s)) with (s := s)
      as (h & t1 & t2 & H1 & H2 & H3);
      [simpl in Hn; lia | reflexivity |].
    rewrite (chunk_lines_cons _ _ Hm), split_NL_cons, H1, H2.
    destruct (N.eqb c LF).
    + exists [], (h :: t1), (h :: t2). repeat split.
      cbn [filter]. now rewrite H3.
    + exists (c :: h), t1, t2. now repeat split.
Qed.

Lemma data_payloads_nonempty (lines : list jsstring) :
  data_payloads (filter nonempty lines) = data_payloads lines.
Proof.
  unfold data_payloads. f_equal.
  induction lines as [|l lines IH]; [reflexivity|].
  destruct l as [|c l]; cbn [filter nonempty]; [exact IH|].
  destruct (startsWith (c :: l) DATA_PREFIX); now rewrite IH.
Qed.

(** The payloads of a chunk are those of the data lines of its text. *)
Lemma chunk_payloads_lines (s : jsstring) :
  chunk_payloads s = data_payloads (split s NL).
Proof.
  destruct (chunk_lines_split s) as (h & t1 & t2 & H1 & H2 & H3).
  unfold chunk_payloads. rewrite H1, H2.
  change (h :: t1) with ([h] ++ t1). change (h :: t2) with ([h] ++ t2).
  rewrite !data_payloads_app. f_equal.
  now rewrite <- (data_payloads_nonempty t1), H3, data_payloads_nonempty.
Qed.

Lemma ends_line_inv (chunk : jsstring) :
  ends_line chunk = true -> chunk = [] \/ exists a, chunk = a ++ [LF].
Proof.
  unfold ends_line. intros H. apply N.eqb_eq in H.
  destruct chunk as [|c chunk]; [now left|]. right.
  exists (removelast (c :: chunk)).
  assert (E : c :: chunk
              = removelast (c :: chunk) ++ [last (c :: chunk) LF])
    by (apply app_removelast_last; discriminate).
  now rewrite H in E.
Qed.

(** A chunk that stops at the end of a line can be processed apart from
    what follows it. *)
Lemma chunk_payloads_app (chunk rest : jsstring) :
  ends_line chunk = true ->
  chunk_payloads (chunk ++ rest) = chunk_payloads chunk ++ chunk_payloads rest.
Proof.
  intros H. destruct (ends_line_inv _ H) as [->|[a ->]]; [reflexivity|].
  rewrite !chunk_payloads_lines, <- app_assoc. cbn [app].
  rewrite split_NL_app, (split_NL_app a []), !data_payloads_app.
  cbn. now rewrite app_nil_r.
Qed.

Lemma stream_payloads_concat (chunks : list jsstring) :
  forallb ends_line chunks = true ->
  stream_payloads chunks = chunk_payloads (concat chunks).
Proof.
  induction chunks as [|c chunks IH]; intros H; [reflexivity|].
  cbn [forallb] in H. apply andb_prop in H as [Hc Hcs].
  cbn [concat]. rewrite (chunk_payloads_app _ _ Hc), <- (IH Hcs).
  reflexivity.
Qed.

End LineLemmas.

(** ** Unescaping *)

Section UnescapeLemmas.

Lemma replace_escaped_newlines_cons2 (c d : code_unit) (s : jsstring) :
  replace_escaped_newlines (c :: d :: s) =
  if N.eqb c BACKSLASH && N.eqb d LOWER_N
  then LF :: replace_escaped_newlines s
  else c :: replace_escaped_newlines (d :: s).
Proof. reflexivity. Qed.

(** An escape sequence is decoded wherever it stands. *)
Lemma replace_escaped_newlines_app (a b : jsstring) :
  replace_escaped_newlines (a ++ ESCAPED_NL ++ b) =
  replace_escaped_newlines a ++ LF :: replace_escaped_newlines b.
Proof.
  remember (length a) as n eqn:Hn.
  revert a Hn; induction n as [n IH] using lt_wf_ind; intros a Hn.
  destruct a as [|c [|d a]].
  - reflexivity.
  - cbn [app ESCAPED_NL]. rewrite replace_escaped_newlines_cons2.
    replace (N.eqb BACKSLASH LOWER_N) with false by reflexivity.
    rewrite andb_false_r. reflexivity.
  - change ((c :: d :: a) ++ ESCAPED_NL ++ b)
      with (c :: d :: (a ++ ESCAPED_NL ++ b)).
    rewrite !replace_escaped_newlines_cons2.
    destruct (N.eqb c BACKSLASH && N.eqb d LOWER_N).
    + rewrite (IH (length a)); [reflexivity | simpl in Hn; lia | reflexivity].
    + change (d :: a ++ ESCAPED_NL ++ b) with ((d :: a) ++ ESCAPED_NL ++ b).
      rewrite (IH (length (d :: a))); [reflexivity | simpl in *; lia
                                      | reflexivity].
Qed.

Lemma replace_escaped_newlines_head (d : code_unit) (s : jsstring) :
  exists rest,
    replace_escaped_newlines (d :: s) = LF :: rest \/
    replace_escaped_newlines (d :: s) = d :: rest.
Proof.
  destruct s as [|e s]; [exists []; now right|].
  rewrite replace_escaped_newlines_cons2.
  destruct (N.eqb d BACKSLASH && N.eqb e LOWER_N); eauto.
Qed.

(** No escape sequence is left in the decoded text. *)
Lemma replace_escaped_newlines_done (s a b : jsstring) :
  replace_escaped_newlines s <> a ++ ESCAPED_NL ++ b.
Proof.
  remember (length s) as n eqn:Hn.
  revert s a Hn; induction n as [n IH] using lt_wf_ind; intros s a Hn.
  destruct s as [|c [|d s]].
  - destruct a; discriminate.
  - destruct a as [|x [|y a]]; discriminate.
  - rewrite replace_escaped_newlines_cons2.
    destruct (N.eqb c BACKSLASH && N.eqb d LOWER_N) eqn:Hm.
    + destruct a as [|x a]; [discriminate|].
      intros H. injection H as _ H.
      assert (Hlt : length s < n) by (simpl in Hn; lia).
      exact (IH (length s) Hlt s a eq_refl H).
    + destruct a as [|x a].
      * cbn [app ESCAPED_NL]. intros H. injection H as Hc H. subst c.
        change (N.eqb BACKSLASH BACKSLASH) with true in Hm.
        cbn [andb] in Hm.
        change (replace_escaped_newlines (d :: s) = LOWER_N :: b) in H.
        destruct (replace_escaped_newlines_head d s) as [r [Hr|Hr]];
          rewrite Hr in H; injection H as H _; [discriminate|].
        subst d. discriminate.
      * intros H. injection H as _ H.
        assert (Hlt : length (d :: s) < n) by (simpl in *; lia).
        exact (IH (length (d :: s)) Hlt (d :: s) a eq_refl H).
Qed.

End UnescapeLemmas.

(** ** Termination of the session *)

Section TerminationLemmas.

Lemma completion_of_after (t : list effect) (o : outcome) :
  completion_of (after t o) = completion_of o.
Proof. reflexivity. Qed.

Lemma text_of_after (t : list effect) (o : outcome) :
  text_of (after t o) = text_of o.
Proof. reflexivity. Qed.

Lemma trace_of_after (t : list effect) (o : outcome) :
  trace_of (after t o) = t ++ trace_of o.
Proof. reflexivity. Qed.

(** A loop that has returned or thrown does not look at what follows. *)
Lemma for_of_stopped (A : Type) (body : jsstring -> A -> outcome)
  (xs more : list A) (acc : jsstring) :
  completion_of (for_of body acc xs) <> Normal ->
  for_of body acc (xs ++ more) = for_of body acc xs.
Proof.
  intros H. rewrite for_of_app.
  destruct (for_of body acc xs) as [[a t] [| |e]]; try reflexivity.
  now contradiction H.
Qed.

Lemma read_loop_stopped (reads more : list read_result) (acc : jsstring) :
  completion_of (read_loop acc reads) <> Normal ->
  read_loop acc (reads ++ more) = read_loop acc reads.
Proof.
  revert acc; induction reads as [|[chunk|err] reads IH]; intros acc H.
  - now contradiction H.
  - cbn [app read_loop] in *.
    destruct (process_chunk acc chunk) as [[a t] [| |e]]; try reflexivity.
    rewrite completion_of_after in H. now rewrite (IH a H).
  - reflexivity.
Qed.

Lemma on_payload_completion (acc acc' data : jsstring) :
  completion_of (on_payload acc data) = completion_of (on_payload acc' data).
Proof.
  unfold on_payload, process_line.
  destruct (data_line_payload data) as [-> ->].
  destruct (eqb data DONE_SENTINEL); [reflexivity|].
  destruct (startsWith data ERROR_SENTINEL); reflexivity.
Qed.

Lemma first_sentinel_app (xs ys : list jsstring) :
  first_sentinel (xs ++ ys) =
  match first_sentinel xs with
  | Some data => Some data
  | None => first_sentinel ys
  end.
Proof.
  induction xs as [|x xs IH]; simpl; [reflexivity|].
  destruct (is_content x); [exact IH | reflexivity].
Qed.

Lemma first_sentinel_content (xs : list jsstring) :
  all_content xs -> first_sentinel xs = None.
Proof. induction 1 as [|x xs Hx Hxs IH]; simpl; now rewrite ?Hx. Qed.

Lemma first_sentinel_stop (xs ys : list jsstring) (data : jsstring) :
  all_content xs -> is_content data = false ->
  first_sentinel (xs ++ data :: ys) = Some data.
Proof.
  intros Hx Hd. rewrite first_sentinel_app, (first_sentinel_content _ Hx).
  simpl. now rewrite Hd.
Qed.

(** When every read delivers a chunk, the way the loop ends is decided by
    the first sentinel among the payloads. *)
Lemma read_loop_completion (chunks : list jsstring) (acc : jsstring) :
  completion_of (read_loop acc (map Value chunks)) =
  match first_sentinel (stream_payloads chunks) with
  | Some data => completion_of (on_payload [] data)
  | None => Normal
  end.
Proof.
  revert acc; induction chunks as [|chunk chunks IH]; intros acc;
    [reflexivity|].
  change (stream_payloads (chunk :: chunks))
    with (chunk_payloads chunk ++ stream_payloads chunks).
  rewrite first_sentinel_app.
  destruct (content_prefix_split (chunk_payloads chunk))
    as [Hall|(d & r & Hsplit & Hd)].
  - assert (Hc : all_content (chunk_payloads chunk))
      by (rewrite Hall; apply content_prefix_all).
    rewrite (first_sentinel_content _ Hc).
    cbn [map read_loop].
    rewrite process_chunk_payloads, (for_payloads_content _ acc Hc).
    rewrite completion_of_after. apply IH.
  - pose proof (content_prefix_all (chunk_payloads chunk)) as Hc.
    cbn [map].
    rewrite (read_loop_sentinel _ _ (map Value chunks) _ _ acc Hsplit Hc Hd).
    rewrite Hsplit, (first_sentinel_stop _ _ _ Hc Hd).
    rewrite completion_of_after. apply on_payload_completion.
Qed.

(** The [try] block never calls the error callback itself. *)
Lemma for_payloads_errors (payloads : list jsstring) (acc : jsstring) :
  error_calls (trace_of (for_of on_payload acc payloads)) = [].
Proof.
  destruct (content_prefix_split payloads) as [Hall|(d & r & Hsplit & Hd)].
  - assert (Hc : all_content payloads)
      by (rewrite Hall; apply content_prefix_all).
    rewrite (for_payloads_content _ acc Hc). apply error_calls_SetSummary.
  - pose proof (content_prefix_all payloads) as Hc.
    rewrite Hsplit, (for_payloads_sentinel _ _ _ _ Hc Hd), trace_of_after.
    rewrite error_calls_app, error_calls_SetSummary.
    destruct (on_payload_sentinel
                (acc ++ decoded (content_prefix payloads)) _ Hd)
      as [->|[e ->]]; reflexivity.
Qed.

Lemma read_loop_errors (reads : list read_result) (acc : jsstring) :
  error_calls (trace_of (read_loop acc reads)) = [].
Proof.
  revert acc; induction reads as [|[chunk|err] reads IH]; intros acc;
    try reflexivity.
  cbn [read_loop].
  pose proof (for_payloads_errors (chunk_payloads chunk) acc) as He.
  rewrite <- process_chunk_payloads in He.
  destruct (process_chunk acc chunk) as [[a t] [| |e]];
    unfold trace_of in He; cbn [fst snd] in He.
  - rewrite trace_of_after. cbn [app error_calls].
    now rewrite error_calls_app, He, IH.
  - exact He.
  - exact He.
Qed.

Lemma ingest_errors (reads : list read_result) :
  error_calls (trace_of (ingest reads)) = [].
Proof.
  unfold ingest. pose proof (read_loop_errors reads []) as He.
  destruct (read_loop [] reads) as [[a t] [| |e]];
    unfold trace_of in *; cbn [fst snd] in *; try exact He.
  now rewrite error_calls_app, He.
Qed.

Lemma try_block_errors (fetched : fetch_result) :
  error_calls (trace_of (try_block fetched)) = [].
Proof.
  destruct fetched as [err|[o j b]]; [reflexivity|].
  unfold try_block. cbn [ok json body].
  destruct o; cbn [negb].
  - destruct b as [reads|]; [apply ingest_errors | reflexivity].
  - destruct j as [err|[detail|]]; reflexivity.
Qed.

Lemma ingest_progress (reads : list read_result) :
  progress_calls (trace_of (ingest reads)) =
  progress_calls (trace_of (read_loop [] reads)) /\
  text_of (ingest reads) = text_of (read_loop [] reads).
Proof.
  unfold ingest.
  destruct (read_loop [] reads) as [[a t] [| |e]];
    unfold trace_of, text_of; cbn [fst snd]; split; try reflexivity.
  rewrite progress_calls_app. apply app_nil_r.
Qed.

Lemma ingest_completion (reads : list read_result) :
  completion_of (ingest reads) = completion_of (read_loop [] reads).
Proof.
  unfold ingest. now destruct (read_loop [] reads) as [[a t] [| |e]].
Qed.

Lemma chunks_before_rejection_values (chunks : list jsstring) :
  chunks_before_rejection (map Value chunks) = chunks.
Proof. induction chunks as [|c cs IH]; simpl; now rewrite ?IH. Qed.

Lemma growing_snapshots (payloads : list jsstring) (acc : jsstring) :
  growing acc (snapshots acc payloads).
Proof.
  revert acc; induction payloads as [|p ps IH]; intros acc; simpl;
    [exact I|].
  split; [now exists (replace_escaped_newlines p) | apply IH].
Qed.

Lemma last_cons_default (x d : jsstring) (l : list jsstring) :
  last (x :: l) d = last l x.
Proof.
  revert x d; induction l as [|y l IH]; intros x d; [reflexivity|].
  change (last (x :: y :: l) d) with (last (y :: l) d).
  now rewrite (IH y d), (IH y x).
Qed.

Lemma last_snapshots (payloads : list jsstring) (acc : jsstring) :
  last (snapshots acc payloads) acc = acc ++ decoded payloads.
Proof.
  revert acc; induction payloads as [|p ps IH]; intros acc.
  - unfold decoded. simpl. now rewrite app_nil_r.
  - cbn [snapshots]. rewrite last_cons_default, IH.
    unfold decoded. cbn [map concat]. now rewrite app_assoc.
Qed.

End TerminationLemmas.

(** ** The session up to its first sentinel *)

Section SessionLemmas.

Lemma read_loop_until (before : list jsstring) (chunk data : jsstring)
  (payloads_before payloads_after : list jsstring)
  (later : list read_result) :
  all_content (stream_payloads before) ->
  chunk_payloads chunk = payloads_before ++ data :: payloads_after ->
  all_content payloads_before ->
  is_content data = false ->
  read_loop [] (map Value before ++ Value chunk :: later) =
  after (trace_until before payloads_before)
        (on_payload (decoded (stream_payloads before ++ payloads_before))
                    data).
Proof.
  intros Hb Hc Hpb Hd.
  rewrite (read_loop_content _ _ [] Hb). cbn [app].
  rewrite (read_loop_sentinel _ _ later _ _ _ Hc Hpb Hd), after_after.
  unfold trace_until. now rewrite decoded_app.
Qed.

Lemma trace_until_progress (before payloads_before : list jsstring) :
  progress_calls (trace_until before payloads_before) =
  snapshots [] (stream_payloads before ++ payloads_before).
Proof.
  unfold trace_until. rewrite progress_calls_app, content_trace_progress.
  cbn [progress_calls]. now rewrite progress_calls_SetSummary, snapshots_app.
Qed.

Lemma trace_until_errors (before payloads_before : list jsstring) :
  error_calls (trace_until before payloads_before) = [].
Proof.
  unfold trace_until. rewrite error_calls_app, content_trace_errors.
  cbn [error_calls app]. apply error_calls_SetSummary.
Qed.

Lemma trace_until_reads (before payloads_before : list jsstring) :
  reads_made (trace_until before payloads_before) = S (length before).
Proof.
  unfold trace_until. rewrite reads_made_app, content_trace_reads.
  cbn [reads_made]. rewrite reads_made_SetSummary. lia.
Qed.

(** The handler reports every throw of the [try] block once, and nothing
    else. *)
Lemma session_error_calls (fetched : fetch_result) :
  error_calls (trace_of (session fetched)) =
  match completion_of (try_block fetched) with
  | Throw err => [message_of err]
  | _ => []
  end.
Proof.
  unfold session. pose proof (try_block_errors fetched) as He.
  destruct (try_block fetched) as [[a t] [| |e]];
    unfold trace_of, completion_of in *; cbn [fst snd] in *; try exact He.
  now rewrite error_calls_app, He.
Qed.

Lemma session_never_throws (fetched : fetch_result) :
  completion_of (session fetched) = Normal \/
  completion_of (session fetched) = Return.
Proof.
  unfold session.
  destruct (try_block fetched) as [[a t] [| |e]]; auto.
Qed.

Lemma handleSummarize_completes (fetched : fetch_result) :
  completion_of (handleSummarize fetched) = Normal.
Proof.
  unfold handleSummarize.
  destruct (session_never_throws fetched) as [H|H];
    destruct (session fetched) as [[a t] c]; unfold completion_of in H;
    cbn [snd] in H; subst c; reflexivity.
Qed.

End SessionLemmas.

(** ** The test of the repository *)

(** The text that [page.test.tsx] expects on screen (line 72): the fragment
    that ends the first chunk is processed with its chunk. *)
Lemma page_test_expectation :
  text_of (handleSummarize (streaming page_test_reads))
    = lit "This is a test summary." /\
  progress_calls (trace_of (session (streaming page_test_reads)))
    = [lit "This is "; lit "This is a test summary."].
Proof. split; reflexivity. Qed.

(** ** Claims on single lines and payloads *)

(** C5. For the chunk ["data: This is \n\ndata: a test summary.\n\n"]
    followed by the chunk ["data: [DONE]\n\n"], the final accumulated text
    is ["This is a test summary."] and the session ends in [DONE]: the two
    progress callbacks carry ["This is "] and the full text, and the error
    callback is not invoked. *)
Theorem test_summary_stream :
  text_of (handleSummarize (streaming test_summary_reads))
    = lit "This is a test summary." /\
  terminal_state (streaming test_summary_reads) = DONE /\
  completion_of (try_block (streaming test_summary_reads)) = Return /\
  progress_calls (trace_of (session (streaming test_summary_reads)))
    = [lit "This is "; lit "This is a test summary."] /\
  error_calls (trace_of (session (streaming test_summary_reads))) = [].
Proof. vm_compute. repeat split. Qed.

(** C7. A content payload (neither [DONE] nor starting with [ERROR]) is
    appended to the accumulated text with every backslash+n sequence decoded
    to one line feed: the data line appends the decoded payload and passes
    the new text to the progress callback; an escape sequence is decoded
    wherever it occurs in the payload and none is left in the decoded text;
    and the payload [line1\nline2] (with a
    literal backslash and n) contributes the two lines [line1] and
    [line2]. *)
Theorem content_payload_unescaped :
  (forall acc data,
     is_content data = true ->
     process_line acc (DATA_PREFIX ++ data) =
     (acc ++ replace_escaped_newlines data,
      [SetSummary (acc ++ replace_escaped_newlines data)], Normal)) /\
  (forall a b,
     replace_escaped_newlines (a ++ ESCAPED_NL ++ b) =
     replace_escaped_newlines a ++ LF :: replace_escaped_newlines b) /\
  (forall data a b,
     replace_escaped_newlines data <> a ++ ESCAPED_NL ++ b) /\
  text_of (process_line [] (DATA_PREFIX ++ lit "line1\nline2"))
    = lit "line1" ++ [LF] ++ lit "line2" /\
  split (text_of (process_line [] (DATA_PREFIX ++ lit "line1\nline2"))) NL
    = [lit "line1"; lit "line2"].
Proof.
  split; [exact process_line_content|].
  split; [exact replace_escaped_newlines_app|].
  split; [exact replace_escaped_newlines_done|].
  split; reflexivity.
Qed.

Lemma content_payload_unescaped_witness :
  is_content (lit "a\nb") = true /\
  process_line (lit "x") (DATA_PREFIX ++ lit "a\nb") =
  (lit "x" ++ replace_escaped_newlines (lit "a\nb"),
   [SetSummary (lit "x" ++ replace_escaped_newlines (lit "a\nb"))], Normal).
Proof.
  split; [reflexivity|].
  apply (proj1 content_payload_unescaped (lit "x") (lit "a\nb")).
  reflexivity.
Defined.

(** C9. A line that does not begin with ["data: "] is ignored: processing it
    leaves the accumulated text unchanged, makes no callback and keeps the
    loop running; hence an event, and a whole list of lines, is processed
    exactly as if the line were not there. *)
Theorem non_data_line_is_noop (line : jsstring) :
  startsWith line DATA_PREFIX = false ->
  (forall acc,
     process_line acc line = (acc, [], Normal) /\
     state_after (process_line acc line) = ACTIVE) /\
  (forall acc before after_,
     for_of process_line acc (before ++ line :: after_) =
     for_of process_line acc (before ++ after_)) /\
  (forall acc event before after_,
     split event NL = before ++ line :: after_ ->
     process_event acc event = for_of process_line acc (before ++ after_)).
Proof.
  intros H.
  assert (Hlines : forall acc before after_,
            for_of process_line acc (before ++ line :: after_) =
            for_of process_line acc (before ++ after_)).
  { intros acc before after_. rewrite !for_of_app.
    destruct (for_of process_line acc before) as [[a t] [| |e]];
      try reflexivity.
    cbn [for_of]. rewrite (process_line_other a line H).
    now rewrite after_nil. }
  split; [|split].
  - intros acc. now rewrite (process_line_other acc line H).
  - exact Hlines.
  - intros acc event before after_ Hsplit. unfold process_event.
    rewrite Hsplit. apply Hlines.
Qed.

Lemma non_data_line_is_noop_witness :
  process_event (lit "so far") (lit "data: a" ++ NL ++ lit "id: 7")
  = for_of process_line (lit "so far") ([lit "data: a"] ++ []).
Proof.
  apply (proj2 (proj2 (non_data_line_is_noop (lit "id: 7") eq_refl))
           (lit "so far") (lit "data: a" ++ NL ++ lit "id: 7")
           [lit "data: a"] []).
  reflexivity.
Defined.

(** C10. The error sentinel is matched on the 7 code units of [[ERROR]] and
    the message is the payload without its first 8 code units.  So a payload
    made of [[ERROR]], one more code unit [c] (a space or not) and [msg]
    throws an error whose message is [msg], dropping [c]; it is not content,
    nothing is appended and no progress callback is made; a stream starting
    with its frame ends in [FAILED] with the error callback invoked with
    [msg].  For the payload [[ERROR]Xmsg] the message is [msg]. *)
Theorem error_prefix_without_space (c : code_unit) (msg : jsstring) :
  (forall acc,
     process_line acc (DATA_PREFIX ++ ERROR_SENTINEL ++ c :: msg) =
     (acc, [], Throw (ErrorObj msg)) /\
     state_after
       (process_line acc (DATA_PREFIX ++ ERROR_SENTINEL ++ c :: msg))
     = FAILED) /\
  is_content (ERROR_SENTINEL ++ c :: msg) = false /\
  (~ In LF (c :: msg) ->
   forall later,
     session (streaming (Value (frame (ERROR_SENTINEL ++ c :: msg)) :: later))
     = ([], [ReaderRead; SetIsLoading false; SetError msg;
             ConsoleError (ErrorObj msg)], Normal) /\
     terminal_state
       (streaming (Value (frame (ERROR_SENTINEL ++ c :: msg)) :: later))
     = FAILED) /\
  error_calls
    (trace_of (session (streaming [Value (frame (lit "[ERROR]Xmsg"))])))
  = [lit "msg"].
Proof.
  split; [|split; [|split]]; try reflexivity.
  - intros acc. split; reflexivity.
  - intros Hno later.
    assert (Hc : chunk_payloads
                   (frame (ERROR_SENTINEL ++ c :: msg))
                 = [] ++ (ERROR_SENTINEL ++ c :: msg) :: []).
    { rewrite <- (app_nil_r (frame _)).
      rewrite chunk_payloads_frame; [reflexivity|].
      intros Hin. apply in_app_or in Hin as [Hin|Hin]; [|now apply Hno].
      vm_compute in Hin.
      repeat (destruct Hin as [Hin|Hin]; [discriminate|]). exact Hin. }
    assert (Hloop := read_loop_sentinel _ _ later _ _ []
                       Hc (Forall_nil _) eq_refl).
    unfold session, terminal_state, try_block, streaming. cbn [ok negb body].
    unfold ingest. rewrite Hloop. split; reflexivity.
Qed.

Lemma error_prefix_without_space_witness :
  ~ In LF (88%N :: lit "msg") /\
  session (streaming [Value (frame (ERROR_SENTINEL ++ 88%N :: lit "msg"))])
  = ([], [ReaderRead; SetIsLoading false; SetError (lit "msg");
          ConsoleError (ErrorObj (lit "msg"))], Normal).
Proof.
  assert (H : ~ In LF (88%N :: lit "msg")) by no_LF.
  split; [exact H|].
  apply (proj1 (proj2 (proj2 (error_prefix_without_space 88%N (lit "msg")))) H []).
Defined.

(** ** Claims on whole sessions *)

(** C6. A data line whose payload is exactly [[DONE]] makes the loop return
    after [setIsLoading(false)], leaving the text as it is; the lines after
    it are not processed.  When such a line is reached in a session (all the
    payloads before it, in the earlier chunks and in its own chunk, being
    content), the session ends in [DONE], the text is that of the payloads
    before, and the outcome does not depend on the payloads that follow in
    the chunk nor on the later reads, none of which is made. *)
Theorem done_stops_session :
  (forall acc rest,
     for_of process_line acc ((DATA_PREFIX ++ DONE_SENTINEL) :: rest)
       = (acc, [SetIsLoading false], Return) /\
     state_after
       (for_of process_line acc ((DATA_PREFIX ++ DONE_SENTINEL) :: rest))
       = DONE) /\
  (forall before chunk payloads_before payloads_after later,
     all_content (stream_payloads before) ->
     chunk_payloads chunk
       = payloads_before ++ DONE_SENTINEL :: payloads_after ->
     all_content payloads_before ->
     session (streaming (map Value before ++ Value chunk :: later)) =
       (decoded (stream_payloads before ++ payloads_before),
        trace_until before payloads_before ++ [SetIsLoading false],
        Return) /\
     terminal_state (streaming (map Value before ++ Value chunk :: later))
       = DONE /\
     reads_made
       (trace_of
          (session (streaming (map Value before ++ Value chunk :: later))))
       = S (length before) /\
     progress_calls
       (trace_of
          (session (streaming (map Value before ++ Value chunk :: later))))
       = snapshots [] (stream_payloads before ++ payloads_before) /\
     (forall chunk' payloads_after' later',
        chunk_payloads chunk'
          = payloads_before ++ DONE_SENTINEL :: payloads_after' ->
        session (streaming (map Value before ++ Value chunk' :: later')) =
        session (streaming (map Value before ++ Value chunk :: later)))).
Proof.
  split; [intros acc rest; split; reflexivity|].
  intros before chunk payloads_before payloads_after later Hb Hc Hpb.
  assert (Hs : forall chunk' payloads_after' later',
            chunk_payloads chunk'
              = payloads_before ++ DONE_SENTINEL :: payloads_after' ->
            session (streaming (map Value before ++ Value chunk' :: later')) =
            (decoded (stream_payloads before ++ payloads_before),
             trace_until before payloads_before ++ [SetIsLoading false],
             Return)).
  { intros chunk' pa' later' Hc'.
    unfold session, streaming, try_block. cbn [ok negb body]. unfold ingest.
    rewrite (read_loop_until _ _ _ _ _ later' Hb Hc' Hpb eq_refl).
    reflexivity. }
  split; [now apply (Hs chunk payloads_after later)|].
  split.
  { unfold terminal_state, streaming, try_block. cbn [ok negb body].
    unfold ingest.
    rewrite (read_loop_until _ _ _ _ _ later Hb Hc Hpb eq_refl).
    reflexivity. }
  rewrite (Hs chunk payloads_after later Hc). unfold trace_of. cbn [fst snd].
  split; [|split].
  - rewrite reads_made_app, trace_until_reads. simpl. lia.
  - rewrite progress_calls_app, trace_until_progress. apply app_nil_r.
  - intros chunk' pa' later' Hc'. apply (Hs chunk' pa' later' Hc').
Qed.

Lemma done_stops_session_witness :
  session (streaming (map Value [frame (lit "ab")]
                        ++ Value (frame (lit "c") ++ frame DONE_SENTINEL
                                    ++ frame (lit "ignored"))
                        :: [Value (frame (lit "late"))])) =
  (decoded (stream_payloads [frame (lit "ab")] ++ [lit "c"]),
   trace_until [frame (lit "ab")] [lit "c"] ++ [SetIsLoading false],
   Return).
Proof.
  refine (proj1 (proj2 done_stops_session [frame (lit "ab")]
            (frame (lit "c") ++ frame DONE_SENTINEL ++ frame (lit "ignored"))
            [lit "c"] [lit "ignored"] [Value (frame (lit "late"))] _ _ _)).
  - repeat constructor.
  - reflexivity.
  - repeat constructor.
Defined.

(** C1, counterexample.  The valid stream made of the frame of ["hello"] and
    the [DONE] frame, read as ["data: hel"], ["lo\n\n"], ["data: [DONE]\n\n"],
    ends with the text ["hel"], not ["hello"]: the final text depends on the
    chunking. *)
Lemma chunking_changes_final_text :
  valid_stream [lit "hello"] (concat split_frame_chunks) /\
  text_of (ingest (map Value split_frame_chunks)) = lit "hel" /\
  decoded [lit "hello"] = lit "hello" /\
  text_of (ingest (map Value [frame (lit "hello"); frame DONE_SENTINEL]))
    = lit "hello" /\
  ~ chunking_invariance.
Proof.
  assert (Hv : valid_stream [lit "hello"] (concat split_frame_chunks)).
  { split; [|split].
    - repeat constructor.
    - repeat (constructor; [no_LF|]). constructor.
    - reflexivity. }
  split; [exact Hv|]. split; [reflexivity|]. split; [reflexivity|].
  split; [reflexivity|].
  intros Hinv. specialize (Hinv split_frame_chunks [lit "hello"] Hv).
  vm_compute in Hinv. discriminate Hinv.
Qed.

(** C1, amended.  Chunking invariance holds for the chunkings in which
    every read stops at the end of a line (each chunk is empty or ends with a
    line feed), as it does whenever each chunk consists of whole frames: for
    every such split of a valid stream the final text is the concatenation of
    the decoded content payloads and the session ends in [DONE]; and for any
    stream, two such splits with equal concatenation give the same final
    text, the same progress callbacks and the same completion. *)
Theorem line_aligned_chunking :
  (forall chunks payloads,
     valid_stream payloads (concat chunks) ->
     forallb ends_line chunks = true ->
     text_of (ingest (map Value chunks)) = decoded payloads /\
     completion_of (ingest (map Value chunks)) = Return /\
     terminal_state (streaming (map Value chunks)) = DONE) /\
  (forall chunks chunks',
     forallb ends_line chunks = true ->
     forallb ends_line chunks' = true ->
     concat chunks = concat chunks' ->
     text_of (ingest (map Value chunks))
       = text_of (ingest (map Value chunks')) /\
     progress_calls (trace_of (ingest (map Value chunks)))
       = progress_calls (trace_of (ingest (map Value chunks'))) /\
     completion_of (ingest (map Value chunks))
       = completion_of (ingest (map Value chunks'))).
Proof.
  assert (Hview : forall chunks,
            forallb ends_line chunks = true ->
            text_of (ingest (map Value chunks))
              = decoded (content_prefix (chunk_payloads (concat chunks))) /\
            progress_calls (trace_of (ingest (map Value chunks)))
              = snapshots []
                  (content_prefix (chunk_payloads (concat chunks))) /\
            completion_of (ingest (map Value chunks))
              = match first_sentinel (chunk_payloads (concat chunks)) with
                | Some data => completion_of (on_payload [] data)
                | None => Normal
                end).
  { intros chunks Ha.
    destruct (ingest_progress (map Value chunks)) as [-> ->].
    destruct (read_loop_progress (map Value chunks) []) as [-> ->].
    rewrite ingest_completion, read_loop_completion.
    rewrite chunks_before_rejection_values, (stream_payloads_concat _ Ha).
    repeat split. }
  split.
  - intros chunks payloads (Hc & Hlf & Hbytes) Ha.
    assert (Hp : chunk_payloads (concat chunks)
                 = payloads ++ [DONE_SENTINEL]).
    { rewrite Hbytes.
      replace (concat (map frame payloads) ++ frame DONE_SENTINEL)
        with (concat (map frame (payloads ++ [DONE_SENTINEL])))
        by (rewrite map_app, concat_app; cbn [map concat];
            now rewrite app_nil_r).
      apply chunk_payloads_frames, Forall_app. split; [exact Hlf|].
      repeat (constructor; [no_LF|]). constructor. }
    destruct (Hview chunks Ha) as (Ht & _ & Hr).
    rewrite Hp in Ht, Hr.
    rewrite (content_prefix_stop payloads [] DONE_SENTINEL Hc eq_refl) in Ht.
    rewrite (first_sentinel_stop payloads [] DONE_SENTINEL Hc eq_refl) in Hr.
    split; [exact Ht|]. split; [exact Hr|].
    unfold terminal_state, streaming, try_block. cbn [ok negb body].
    now rewrite Hr.
  - intros chunks chunks' Ha Ha' Heq.
    destruct (Hview chunks Ha) as (-> & -> & ->).
    destruct (Hview chunks' Ha') as (-> & -> & ->).
    now rewrite Heq.
Qed.

Lemma line_aligned_chunking_witness :
  text_of
    (ingest (map Value [frame (lit "a") ++ frame (lit "b");
                        lit "data: c" ++ NL;
                        [];
                        NL ++ frame DONE_SENTINEL]))
  = decoded [lit "a"; lit "b"; lit "c"].
Proof.
  refine (proj1 (proj1 line_aligned_chunking
                   [frame (lit "a") ++ frame (lit "b");
                    lit "data: c" ++ NL;
                    [];
                    NL ++ frame DONE_SENTINEL]
                   [lit "a"; lit "b"; lit "c"] _ _)).
  - split; [|split].
    + repeat constructor.
    + repeat (constructor; [no_LF|]). constructor.
    + reflexivity.
  - reflexivity.
Defined.

(** C2, counterexample.  A stream that delivers the frame of ["partial"] and
    then ends, no sentinel having been seen: the [try] block completes, the
    [catch] block does not run, the error callback is not invoked and the
    session does not end in [FAILED]. *)
Lemma eof_reported_as_success :
  first_sentinel (stream_payloads [frame (lit "partial")]) = None /\
  session (streaming [Value (frame (lit "partial"))]) =
    (lit "partial",
     [ReaderRead; SetSummary (lit "partial"); ReaderRead; SetIsLoading false],
     Normal) /\
  error_calls (trace_of (session (streaming [Value (frame (lit "partial"))])))
    = [] /\
  terminal_state (streaming [Value (frame (lit "partial"))]) <> FAILED.
Proof.
  split; [reflexivity|]. split; [reflexivity|]. split; [reflexivity|].
  vm_compute. discriminate.
Qed.

(** C2, amended.  When the stream ends without any [DONE] or [ERROR]
    sentinel having been seen (every payload of every chunk is content), the
    loop is left by [break] and the session completes as a success: the text
    is that of all the payloads, the last effect is [setIsLoading(false)],
    the error callback is not invoked, the state is [DONE], and the effects
    are exactly those of the same chunks followed by a [DONE] frame. *)
Theorem eof_without_sentinel_completes (chunks : list jsstring) :
  all_content (stream_payloads chunks) ->
  session (streaming (map Value chunks)) =
    (decoded (stream_payloads chunks),
     content_trace [] chunks ++ [ReaderRead; SetIsLoading false],
     Normal) /\
  error_calls (trace_of (session (streaming (map Value chunks)))) = [] /\
  terminal_state (streaming (map Value chunks)) = DONE /\
  trace_of (session (streaming (map Value chunks))) =
  trace_of
    (session (streaming (map Value chunks ++ [Value (frame DONE_SENTINEL)]))).
Proof.
  intros Hc.
  assert (Hloop : read_loop [] (map Value chunks) =
                  (decoded (stream_payloads chunks),
                   content_trace [] chunks ++ [ReaderRead], Normal)).
  { rewrite <- (app_nil_r (map Value chunks)).
    now rewrite (read_loop_content _ _ [] Hc). }
  assert (Hs : session (streaming (map Value chunks)) =
               (decoded (stream_payloads chunks),
                content_trace [] chunks ++ [ReaderRead; SetIsLoading false],
                Normal)).
  { unfold session, streaming, try_block. cbn [ok negb body]. unfold ingest.
    rewrite Hloop. now rewrite <- app_assoc. }
  split; [exact Hs|]. split; [|split].
  - rewrite session_error_calls. unfold streaming, try_block.
    cbn [ok negb body]. unfold ingest. now rewrite Hloop.
  - unfold terminal_state, streaming, try_block. cbn [ok negb body].
    unfold ingest. now rewrite Hloop.
  - rewrite Hs. unfold session, streaming, try_block. cbn [ok negb body].
    unfold ingest.
    rewrite (read_loop_until chunks (frame DONE_SENTINEL) DONE_SENTINEL
               [] [] [] Hc eq_refl (Forall_nil _) eq_refl).
    unfold trace_until. cbn. now rewrite <- app_assoc.
Qed.

Lemma eof_without_sentinel_completes_witness :
  error_calls
    (trace_of
       (session (streaming (map Value [frame (lit "a"); lit "data: b"]))))
  = [].
Proof.
  refine (proj1 (proj2 (eof_without_sentinel_completes
                          [frame (lit "a"); lit "data: b"] _))).
  repeat constructor.
Defined.

(** C3, counterexample.  The frame of ["hello"] read as ["data: hel"] then
    ["lo\n\n"] triggers one progress callback, and it carries the partial
    payload ["hel"], not the merged payload ["hello"]. *)
Lemma split_frame_partial_progress :
  concat [lit "data: hel"; lit "lo" ++ NLNL] = frame (lit "hello") /\
  progress_calls
    (trace_of (ingest [Value (lit "data: hel"); Value (lit "lo" ++ NLNL)]))
    = [lit "hel"] /\
  progress_calls
    (trace_of (ingest [Value (lit "data: hel"); Value (lit "lo" ++ NLNL)]))
    <> [lit "hello"].
Proof.
  split; [reflexivity|]. split; [reflexivity|]. vm_compute. discriminate.
Qed.

(** C3, amended.  The progress callback is invoked once per content data
    line of each chunk taken on its own, up to the first sentinel or rejected
    read, each time with the text accumulated so far, whatever the number of
    chunks.  One chunk holding two complete content frames triggers exactly
    two callbacks, in order.  A frame cut by a chunk boundary is not put
    together again: for ["data: hel"] then ["lo\n\n"] there is exactly one
    callback, carrying ["hel"]. *)
Theorem progress_once_per_data_line :
  (forall reads,
     progress_calls (trace_of (ingest reads)) =
     snapshots []
       (content_prefix (stream_payloads (chunks_before_rejection reads)))) /\
  (forall p1 p2 later,
     is_content p1 = true -> is_content p2 = true ->
     ~ In LF p1 -> ~ In LF p2 ->
     progress_calls
       (trace_of (ingest (Value (frame p1 ++ frame p2) :: later))) =
     replace_escaped_newlines p1
       :: snapshots (replace_escaped_newlines p1)
            (p2 :: content_prefix
                     (stream_payloads (chunks_before_rejection later)))) /\
  (forall p1 p2,
     is_content p1 = true -> is_content p2 = true ->
     ~ In LF p1 -> ~ In LF p2 ->
     progress_calls (trace_of (ingest [Value (frame p1 ++ frame p2)])) =
     [replace_escaped_newlines p1;
      replace_escaped_newlines p1 ++ replace_escaped_newlines p2]) /\
  progress_calls
    (trace_of (ingest [Value (lit "data: hel"); Value (lit "lo" ++ NLNL)]))
    = [lit "hel"].
Proof.
  assert (Hgen : forall reads,
            progress_calls (trace_of (ingest reads)) =
            snapshots []
              (content_prefix
                 (stream_payloads (chunks_before_rejection reads)))).
  { intros reads. rewrite (proj1 (ingest_progress reads)).
    apply (proj1 (read_loop_progress reads [])). }
  assert (Htwo : forall p1 p2 later,
            is_content p1 = true -> is_content p2 = true ->
            ~ In LF p1 -> ~ In LF p2 ->
            progress_calls
              (trace_of (ingest (Value (frame p1 ++ frame p2) :: later))) =
            replace_escaped_newlines p1
              :: snapshots (replace_escaped_newlines p1)
                   (p2 :: content_prefix
                            (stream_payloads
                               (chunks_before_rejection later)))).
  { intros p1 p2 later H1 H2 L1 L2. rewrite Hgen.
    cbn [chunks_before_rejection].
    change (stream_payloads
              ((frame p1 ++ frame p2) :: chunks_before_rejection later))
      with (chunk_payloads (frame p1 ++ frame p2)
              ++ stream_payloads (chunks_before_rejection later)).
    rewrite (chunk_payloads_frame _ _ L1).
    rewrite <- (app_nil_r (frame p2)), (chunk_payloads_frame _ _ L2).
    rewrite chunk_payloads_nil. cbn [app content_prefix].
    rewrite H1, H2. reflexivity. }
  split; [exact Hgen|]. split; [exact Htwo|]. split; [|reflexivity].
  intros p1 p2 H1 H2 L1 L2. rewrite (Htwo p1 p2 [] H1 H2 L1 L2).
  reflexivity.
Qed.

Lemma progress_once_per_data_line_witness :
  progress_calls
    (trace_of (ingest [Value (frame (lit "This is ") ++ frame (lit "a test"))]))
  = [replace_escaped_newlines (lit "This is ");
     replace_escaped_newlines (lit "This is ")
       ++ replace_escaped_newlines (lit "a test")].
Proof.
  refine (proj1 (proj2 (proj2 progress_once_per_data_line))
            (lit "This is ") (lit "a test") _ _ _ _).
  - reflexivity.
  - reflexivity.
  - no_LF.
  - no_LF.
Defined.

(** C4, counterexample.  The frame ["data: [ERROR] API quota exceeded\n\n"]
    cut by a chunk boundary after ["API quo"] reports the message
    ["API quo"]; and the same frame arriving after a [DONE] frame is not
    reported at all, the session having ended in [DONE]. *)
Lemma error_frame_split_or_late :
  concat [lit "data: [ERROR] API quo"; lit "ta exceeded" ++ NLNL]
    = frame API_QUOTA_PAYLOAD /\
  error_calls
    (trace_of
       (session (streaming [Value (lit "data: [ERROR] API quo");
                            Value (lit "ta exceeded" ++ NLNL)])))
    = [lit "API quo"] /\
  lit "API quo" <> API_QUOTA_MESSAGE /\
  error_calls
    (trace_of
       (session (streaming [Value (frame DONE_SENTINEL);
                            Value (frame API_QUOTA_PAYLOAD)])))
    = [] /\
  terminal_state
    (streaming [Value (frame DONE_SENTINEL); Value (frame API_QUOTA_PAYLOAD)])
    = DONE.
Proof.
  split; [reflexivity|]. split; [reflexivity|].
  split; [vm_compute; discriminate|]. split; reflexivity.
Qed.

(** C4, amended.  When the data line [data: [ERROR] API quota exceeded]
    arrives whole within one chunk and is reached while the session is active
    (all the payloads before it are content), the error callback is invoked
    with ["API quota exceeded"], the session ends in [FAILED] and the only
    progress callbacks are those of the payloads before it.  A rejected read
    reached while the session is active is reported in the same way with its
    own message.  On every path, server-signalled or not, the handler
    completes without throwing, and the error callback is invoked exactly
    once when the session ends in [FAILED] and never when it ends in
    [DONE]. *)
Theorem error_frame_reported :
  (forall before chunk payloads_before payloads_after later,
     all_content (stream_payloads before) ->
     chunk_payloads chunk
       = payloads_before ++ API_QUOTA_PAYLOAD :: payloads_after ->
     all_content payloads_before ->
     session (streaming (map Value before ++ Value chunk :: later)) =
       (decoded (stream_payloads before ++ payloads_before),
        trace_until before payloads_before
          ++ catch_block (ErrorObj API_QUOTA_MESSAGE),
        Normal) /\
     error_calls
       (trace_of
          (session (streaming (map Value before ++ Value chunk :: later))))
       = [API_QUOTA_MESSAGE] /\
     progress_calls
       (trace_of
          (session (streaming (map Value before ++ Value chunk :: later))))
       = snapshots [] (stream_payloads before ++ payloads_before) /\
     terminal_state (streaming (map Value before ++ Value chunk :: later))
       = FAILED) /\
  (forall before err later,
     all_content (stream_payloads before) ->
     session (streaming (map Value before ++ Rejected err :: later)) =
       (decoded (stream_payloads before),
        content_trace [] before ++ ReaderRead :: catch_block err,
        Normal) /\
     terminal_state (streaming (map Value before ++ Rejected err :: later))
       = FAILED) /\
  (forall fetched,
     completion_of (handleSummarize fetched) = Normal /\
     (terminal_state fetched = FAILED ->
      exists err,
        completion_of (try_block fetched) = Throw err /\
        error_calls (trace_of (session fetched)) = [message_of err]) /\
     (terminal_state fetched = DONE ->
      error_calls (trace_of (session fetched)) = [])).
Proof.
  split; [|split].
  - intros before chunk pb pa later Hb Hc Hpb.
    assert (Hs : session (streaming (map Value before ++ Value chunk :: later))
                 = (decoded (stream_payloads before ++ pb),
                    trace_until before pb
                      ++ catch_block (ErrorObj API_QUOTA_MESSAGE),
                    Normal)).
    { unfold session, streaming, try_block. cbn [ok negb body].
      unfold ingest.
      rewrite (read_loop_until _ _ _ _ _ later Hb Hc Hpb eq_refl).
      unfold after, on_payload. cbn. now rewrite app_nil_r. }
    split; [exact Hs|]. rewrite Hs. unfold trace_of. cbn [fst snd].
    split; [|split].
    + now rewrite error_calls_app, trace_until_errors.
    + rewrite progress_calls_app, trace_until_progress. apply app_nil_r.
    + unfold terminal_state, streaming, try_block. cbn [ok negb body].
      unfold ingest.
      rewrite (read_loop_until _ _ _ _ _ later Hb Hc Hpb eq_refl).
      reflexivity.
  - intros before err later Hb.
    unfold session, terminal_state, streaming, try_block. cbn [ok negb body].
    unfold ingest. rewrite (read_loop_content _ _ [] Hb).
    cbn [read_loop after text_of trace_of completion_of fst snd app].
    split; [|reflexivity]. now rewrite <- app_assoc.
  - intros fetched. split; [apply handleSummarize_completes|].
    rewrite session_error_calls. unfold terminal_state.
    destruct (completion_of (try_block fetched)) as [| |err]; split;
      try discriminate; try reflexivity.
    intros _. now exists err.
Qed.

Lemma error_frame_reported_witness :
  error_calls
    (trace_of
       (session
          (streaming (map Value [frame (lit "partial ")]
                        ++ Value (frame (lit "text") ++ frame API_QUOTA_PAYLOAD
                                    ++ frame (lit "more"))
                        :: [Value (frame (lit "late"))]))))
  = [API_QUOTA_MESSAGE].
Proof.
  refine (proj1 (proj2 (proj1 error_frame_reported
            [frame (lit "partial ")]
            (frame (lit "text") ++ frame API_QUOTA_PAYLOAD
               ++ frame (lit "more"))
            [lit "text"] [lit "more"] [Value (frame (lit "late"))] _ _ _))).
  - repeat constructor.
  - reflexivity.
  - repeat constructor.
Defined.

(** C8.  The accumulated text only grows: every value passed to the progress
    callback extends the previous one, and the final text is the last value
    passed (the empty text when there was none).  Once the loop has returned
    or thrown (the state has left [ACTIVE]), nothing more is processed: the
    lines and events that follow in the chunk and the reads that follow in
    the stream change neither the text nor the effects nor the completion. *)
Theorem text_grows_and_terminal_is_final :
  (forall reads,
     growing [] (progress_calls (trace_of (ingest reads))) /\
     text_of (ingest reads)
       = last (progress_calls (trace_of (ingest reads))) []) /\
  (forall reads more,
     state_after (read_loop [] reads) <> ACTIVE ->
     ingest (reads ++ more) = ingest reads /\
     session (streaming (reads ++ more)) = session (streaming reads) /\
     terminal_state (streaming (reads ++ more))
       = terminal_state (streaming reads)) /\
  (forall acc lines more,
     state_after (for_of process_line acc lines) <> ACTIVE ->
     for_of process_line acc (lines ++ more)
       = for_of process_line acc lines) /\
  (forall acc events more,
     state_after (for_of process_event acc events) <> ACTIVE ->
     for_of process_event acc (events ++ more)
       = for_of process_event acc events).
Proof.
  assert (Hstop : forall o, state_after o <> ACTIVE ->
                            completion_of o <> Normal).
  { intros o H Hn. apply H. unfold state_after. now rewrite Hn. }
  split; [|split; [|split]].
  - intros reads.
    destruct (ingest_progress reads) as [-> ->].
    destruct (read_loop_progress reads []) as [-> ->].
    split; [apply growing_snapshots|].
    now rewrite last_snapshots.
  - intros reads more H. apply Hstop in H.
    assert (Hi : ingest (reads ++ more) = ingest reads)
      by (unfold ingest; now rewrite (read_loop_stopped _ more _ H)).
    split; [exact Hi|].
    unfold session, terminal_state, streaming, try_block.
    cbn [ok negb body]. now rewrite Hi.
  - intros acc lines more H. apply for_of_stopped. now apply Hstop.
  - intros acc events more H. apply for_of_stopped. now apply Hstop.
Qed.

Lemma text_grows_and_terminal_is_final_witness :
  state_after (read_loop [] [Value (frame (lit "a") ++ frame DONE_SENTINEL)])
    <> ACTIVE /\
  ingest ([Value (frame (lit "a") ++ frame DONE_SENTINEL)]
            ++ [Value (frame (lit "b")); Rejected NonError])
  = ingest [Value (frame (lit "a") ++ frame DONE_SENTINEL)].
Proof.
  assert (H : state_after
                (read_loop [] [Value (frame (lit "a") ++ frame DONE_SENTINEL)])
              <> ACTIVE) by (vm_compute; discriminate).
  split; [exact H|].
  exact (proj1 (proj1 (proj2 text_grows_and_terminal_is_final)
                  [Value (frame (lit "a") ++ frame DONE_SENTINEL)]
                  [Value (frame (lit "b")); Rejected NonError] H)).
Defined.

(** ** Lemmas on white space and [trim] *)

Section TrimLemmas.

Lemma trimStart_length (s : jsstring) : length (trimStart s) <= length s.
Proof.
  induction s as [|c s IH]; simpl; [lia|].
  destruct (isWhiteSpace c); simpl; lia.
Qed.

Lemma trimEnd_length (s : jsstring) : length (trimEnd s) <= length s.
Proof.
  induction s as [|c s IH]; simpl; [lia|].
  destruct (trimEnd s); [destruct (isWhiteSpace c)|]; simpl in *; lia.
Qed.

Lemma trim_length (s : jsstring) : (strlen (trim s) <= strlen s)%N.
Proof.
  unfold strlen, trim.
  pose proof (trimEnd_length (trimStart s)). pose proof (trimStart_length s).
  lia.
Qed.

Lemma trimStart_head (s rest : jsstring) (c : code_unit) :
  trimStart s = c :: rest -> isWhiteSpace c = false.
Proof.
  induction s as [|d s IH]; simpl; [discriminate|].
  destruct (isWhiteSpace d) eqn:Hd; [exact IH|].
  intros H. injection H as -> _. exact Hd.
Qed.

Lemma trimStart_fixed (s : jsstring) (c : code_unit) :
  isWhiteSpace c = false -> trimStart (c :: s) = c :: s.
Proof. intros H. simpl. now rewrite H. Qed.

Lemma trimEnd_cons (s : jsstring) (c : code_unit) :
  isWhiteSpace c = false -> exists rest, trimEnd (c :: s) = c :: rest.
Proof.
  intros H. simpl. destruct (trimEnd s) as [|k ks]; [|eauto].
  rewrite H. eauto.
Qed.

Lemma trimEnd_last (s init : jsstring) (c : code_unit) :
  trimEnd s = init ++ [c] -> isWhiteSpace c = false.
Proof.
  revert init; induction s as [|d s IH]; intros init; simpl.
  - destruct init; discriminate.
  - destruct (trimEnd s) as [|k ks] eqn:Hs.
    + destruct (isWhiteSpace d) eqn:Hd; [destruct init; discriminate|].
      destruct init as [|x [|y init]]; try discriminate.
      intros H. injection H as <-. exact Hd.
    + destruct init as [|x init]; [discriminate|].
      intros H. injection H as _ H. exact (IH init H).
Qed.

Lemma trimEnd_idempotent (s : jsstring) : trimEnd (trimEnd s) = trimEnd s.
Proof.
  induction s as [|c s IH]; [reflexivity|]. simpl.
  destruct (trimEnd s) as [|k ks] eqn:Hs.
  - destruct (isWhiteSpace c) eqn:Hc; [reflexivity|]. simpl. now rewrite Hc.
  - change (trimEnd (c :: k :: ks))
      with (match trimEnd (k :: ks) with
            | [] => if isWhiteSpace c then [] else [c]
            | kept => c :: kept
            end).
    now rewrite IH.
Qed.

Lemma trim_idempotent (s : jsstring) : trim (trim s) = trim s.
Proof.
  unfold trim. destruct (trimStart s) as [|c u] eqn:Hu; [reflexivity|].
  pose proof (trimStart_head _ _ _ Hu) as Hc.
  destruct (trimEnd_cons u _ Hc) as [r Hr]. rewrite Hr.
  rewrite (trimStart_fixed r _ Hc), <- Hr. apply trimEnd_idempotent.
Qed.

Lemma trim_head (s rest : jsstring) (c : code_unit) :
  trim s = c :: rest -> isWhiteSpace c = false.
Proof.
  unfold trim. destruct (trimStart s) as [|d u] eqn:Hu; [discriminate|].
  pose proof (trimStart_head _ _ _ Hu) as Hd.
  destruct (trimEnd_cons u _ Hd) as [r ->]. intros H. now injection H as <- _.
Qed.

End TrimLemmas.

(** ** Lemmas on the word counter *)

Section WordLemmas.

Lemma pieces_cons_head (c : code_unit) (l : list jsstring) :
  l <> [] -> pieces_with_text (cons_head c l) = S (pieces_with_text (tl l)).
Proof. destruct l as [|h t]; [contradiction | reflexivity]. Qed.

Lemma split_whitespace_from_nonempty (b : bool) (s : jsstring) :
  split_whitespace_from b s <> [].
Proof.
  revert b; induction s as [|c s IH]; intros b; simpl; [discriminate|].
  destruct (isWhiteSpace c).
  - destruct b; [apply IH | discriminate].
  - specialize (IH false).
    destruct (split_whitespace_from false s); [contradiction|discriminate].
Qed.

(** The pieces that are not empty are the words. *)
Lemma split_whitespace_words (s : jsstring) :
  (forall b,
     pieces_with_text (split_whitespace_from b s) = word_starts true s) /\
  pieces_with_text (tl (split_whitespace_from false s)) = word_starts false s.
Proof.
  induction s as [|c s [IH1 IH2]]; [split; [intros b|]; reflexivity|].
  cbn [split_whitespace_from word_starts].
  destruct (isWhiteSpace c).
  - split; [intros [|]|]; cbn [tl]; apply IH1.
  - split; [intros b|].
    + rewrite pieces_cons_head by apply split_whitespace_from_nonempty.
      now rewrite IH2.
    + pose proof (split_whitespace_from_nonempty false s) as Hne.
      destruct (split_whitespace_from false s) as [|h t]; [contradiction|].
      exact IH2.
Qed.

Lemma word_starts_trimStart (s : jsstring) :
  word_starts true (trimStart s) = word_starts true s.
Proof.
  induction s as [|c s IH]; [reflexivity|]. simpl.
  destruct (isWhiteSpace c) eqn:Hc; [exact IH|]. simpl. now rewrite Hc.
Qed.

Lemma word_starts_blank (b : bool) (s : jsstring) :
  trimEnd s = [] -> word_starts b s = 0.
Proof.
  revert b; induction s as [|c s IH]; intros b; [reflexivity|]. simpl.
  destruct (trimEnd s) as [|k ks]; [|discriminate].
  destruct (isWhiteSpace c); [intros _; now apply IH | discriminate].
Qed.

Lemma word_starts_trimEnd (b : bool) (s : jsstring) :
  word_starts b (trimEnd s) = word_starts b s.
Proof.
  revert b; induction s as [|c s IH]; intros b; [reflexivity|].
  cbn [trimEnd]. destruct (trimEnd s) as [|k ks] eqn:Hs.
  - cbn [word_starts]. destruct (isWhiteSpace c) eqn:Hc.
    + now rewrite (word_starts_blank true s Hs).
    + cbn [word_starts]. rewrite Hc.
      now rewrite (word_starts_blank false s Hs).
  - cbn [word_starts]. destruct (isWhiteSpace c); now rewrite <- IH.
Qed.

(** The pipeline of line 19 counts the words of the summary. *)
Lemma count_words_word_starts (s : jsstring) :
  count_words s = word_starts true s.
Proof.
  unfold count_words, split_whitespace.
  rewrite (proj1 (split_whitespace_words (trim s)) false).
  unfold trim. now rewrite word_starts_trimEnd, word_starts_trimStart.
Qed.

Lemma word_starts_false_le (s : jsstring) :
  word_starts false s <= word_starts true s <= S (word_starts false s).
Proof.
  destruct s as [|c s]; simpl; [lia|].
  destruct (isWhiteSpace c); simpl; lia.
Qed.

Lemma word_starts_app (b : bool) (x y : jsstring) :
  word_starts b x + word_starts false y <= word_starts b (x ++ y) /\
  word_starts b (x ++ y) <= word_starts b x + word_starts true y.
Proof.
  revert b; induction x as [|c x IH]; intros b.
  - cbn [app word_starts]. pose proof (word_starts_false_le y).
    destruct y as [|d y]; simpl in *; [lia|].
    destruct (isWhiteSpace d); destruct b; simpl in *; lia.
  - cbn [app word_starts]. destruct (isWhiteSpace c).
    + apply IH.
    + pose proof (IH false). lia.
Qed.

(** Appending text never lowers the number of words, and adds at most the
    words of what is appended. *)
Lemma count_words_app (x y : jsstring) :
  count_words x <= count_words (x ++ y) <= count_words x + count_words y.
Proof.
  rewrite !count_words_word_starts.
  pose proof (word_starts_app true x y). lia.
Qed.

End WordLemmas.

(** ** Lemmas on the cells of the page *)

Section PageLemmas.

Lemma loading_calls_app (t1 t2 : list effect) :
  loading_calls (t1 ++ t2) = loading_calls t1 ++ loading_calls t2.
Proof.
  induction t1 as [|e t1 IH]; simpl; [reflexivity|].
  destruct e; simpl; now rewrite IH.
Qed.

Lemma loading_calls_SetSummary (values : list jsstring) :
  loading_calls (map SetSummary values) = [].
Proof. induction values as [|v values IH]; simpl; now rewrite ?IH. Qed.

Lemma for_payloads_loading (payloads : list jsstring) (acc : jsstring) :
  loading_calls (trace_of (for_of on_payload acc payloads)) =
  loading_on (completion_of (for_of on_payload acc payloads)).
Proof.
  destruct (content_prefix_split payloads) as [Hall|(d & r & Hsplit & Hd)].
  - assert (Hc : all_content payloads)
      by (rewrite Hall; apply content_prefix_all).
    rewrite (for_payloads_content _ acc Hc). apply loading_calls_SetSummary.
  - pose proof (content_prefix_all payloads) as Hc.
    rewrite Hsplit, (for_payloads_sentinel _ _ _ _ Hc Hd), trace_of_after.
    rewrite completion_of_after, loading_calls_app, loading_calls_SetSummary.
    destruct (on_payload_sentinel
                (acc ++ decoded (content_prefix payloads)) _ Hd)
      as [->|[e ->]]; reflexivity.
Qed.

Lemma read_loop_loading (reads : list read_result) (acc : jsstring) :
  loading_calls (trace_of (read_loop acc reads)) =
  loading_on (completion_of (read_loop acc reads)).
Proof.
  revert acc; induction reads as [|[chunk|err] reads IH]; intros acc;
    try reflexivity.
  cbn [read_loop].
  pose proof (for_payloads_loading (chunk_payloads chunk) acc) as Hl.
  rewrite <- process_chunk_payloads in Hl.
  destruct (process_chunk acc chunk) as [[a t] [| |e]];
    unfold trace_of, completion_of in Hl; cbn [fst snd loading_on] in Hl.
  - rewrite trace_of_after, completion_of_after. cbn [app loading_calls].
    now rewrite loading_calls_app, Hl, IH.
  - unfold trace_of, completion_of. cbn [fst snd loading_calls loading_on].
    exact Hl.
  - unfold trace_of, completion_of. cbn [fst snd loading_calls loading_on].
    exact Hl.
Qed.

(** The [try] block clears the loading flag once unless it throws. *)
Lemma try_block_loading (fetched : fetch_result) :
  loading_calls (trace_of (try_block fetched)) =
  match completion_of (try_block fetched) with
  | Throw _ => []
  | _ => [false]
  end.
Proof.
  destruct fetched as [err|[o j b]]; [reflexivity|].
  unfold try_block. cbn [ok json body].
  destruct o; cbn [negb]; [|destruct j as [err|[detail|]]; reflexivity].
  destruct b as [reads|]; [|reflexivity].
  unfold ingest. pose proof (read_loop_loading reads []) as Hl.
  destruct (read_loop [] reads) as [[a t] [| |e]];
    unfold trace_of, completion_of in *; cbn [fst snd loading_on] in *;
    try exact Hl.
  now rewrite loading_calls_app, Hl.
Qed.

Lemma session_loading (fetched : fetch_result) :
  loading_calls (trace_of (session fetched)) = [false].
Proof.
  unfold session. pose proof (try_block_loading fetched) as Hl.
  destruct (try_block fetched) as [[a t] [| |e]];
    unfold trace_of, completion_of in *; cbn [fst snd] in *; try exact Hl.
  now rewrite loading_calls_app, Hl.
Qed.

Lemma handleSummarize_trace (fetched : fetch_result) :
  trace_of (handleSummarize fetched) = after_resets (trace_of (session fetched))
  /\ text_of (handleSummarize fetched) = text_of (session fetched).
Proof.
  unfold handleSummarize.
  now destruct (session fetched) as [[a t] [| |e]].
Qed.

Lemma session_text (fetched : fetch_result) :
  text_of (session fetched) = text_of (try_block fetched) /\
  progress_calls (trace_of (session fetched))
    = progress_calls (trace_of (try_block fetched)).
Proof.
  unfold session.
  destruct (try_block fetched) as [[a t] [| |e]]; split; try reflexivity.
  unfold trace_of. cbn [fst snd]. rewrite progress_calls_app. apply app_nil_r.
Qed.

(** The text of the [try] block is the last value it passed to
    [setSummary], the empty text when it passed none. *)
Lemma try_block_text (fetched : fetch_result) :
  text_of (try_block fetched)
  = last (progress_calls (trace_of (try_block fetched))) [].
Proof.
  destruct fetched as [err|[o j b]]; [reflexivity|].
  unfold try_block. cbn [ok json body].
  destruct o; cbn [negb]; [|destruct j as [err|[detail|]]; reflexivity].
  destruct b as [reads|]; [|reflexivity].
  destruct (ingest_progress reads) as [-> ->].
  destruct (read_loop_progress reads []) as [-> ->].
  now rewrite last_snapshots.
Qed.

Lemma last_cons_any (A : Type) (x d : A) (l : list A) :
  last (x :: l) d = last l x.
Proof.
  revert x d; induction l as [|y l IH]; intros x d; [reflexivity|].
  change (last (x :: y :: l) d) with (last (y :: l) d).
  now rewrite (IH y d), (IH y x).
Qed.

(** The cells after a trace hold the last value given to each setter. *)
Lemma run_effects_cells (t : list effect) (st : page_state) :
  summary (run_effects st t) = last (progress_calls t) (summary st) /\
  isLoading (run_effects st t) = last (loading_calls t) (isLoading st) /\
  error (run_effects st t) = last (error_calls t) (error st).
Proof.
  revert st; induction t as [|e t IH]; intros st; [now repeat split|].
  unfold run_effects in *. cbn [fold_left].
  destruct (IH (apply_effect st e)) as (Hs & Hl & He).
  rewrite Hs, Hl, He.
  destruct e; cbn [apply_effect progress_calls loading_calls error_calls
                   summary isLoading error];
    repeat split; now rewrite ?last_cons_any.
Qed.

End PageLemmas.

(** ** Further lemmas on the reader loop and on decoding *)

Section MoreLemmas.

Lemma for_payloads_reads (payloads : list jsstring) (acc : jsstring) :
  reads_made (trace_of (for_of on_payload acc payloads)) = 0.
Proof.
  destruct (content_prefix_split payloads) as [Hall|(d & r & Hsplit & Hd)].
  - assert (Hc : all_content payloads)
      by (rewrite Hall; apply content_prefix_all).
    rewrite (for_payloads_content _ acc Hc). apply reads_made_SetSummary.
  - pose proof (content_prefix_all payloads) as Hc.
    rewrite Hsplit, (for_payloads_sentinel _ _ _ _ Hc Hd), trace_of_after.
    rewrite reads_made_app, reads_made_SetSummary.
    destruct (on_payload_sentinel
                (acc ++ decoded (content_prefix payloads)) _ Hd)
      as [->|[e ->]]; reflexivity.
Qed.

(** One read per chunk taken, and one more to learn that the stream has
    ended. *)
Lemma read_loop_reads (reads : list read_result) (acc : jsstring) :
  match completion_of (read_loop acc reads) with
  | Normal => reads_made (trace_of (read_loop acc reads)) = S (length reads)
  | _ => 1 <= reads_made (trace_of (read_loop acc reads)) <= length reads
  end.
Proof.
  revert acc; induction reads as [|[chunk|err] reads IH]; intros acc.
  - reflexivity.
  - cbn [read_loop].
    pose proof (for_payloads_reads (chunk_payloads chunk) acc) as Hr.
    rewrite <- process_chunk_payloads in Hr.
    destruct (process_chunk acc chunk) as [[a t] [| |e]];
      unfold trace_of in Hr; cbn [fst snd] in Hr.
    + rewrite completion_of_after, trace_of_after. specialize (IH a).
      cbn [app reads_made length]. rewrite reads_made_app, Hr.
      destruct (completion_of (read_loop a reads)); lia.
    + unfold completion_of, trace_of. cbn [fst snd reads_made length]. lia.
    + unfold completion_of, trace_of. cbn [fst snd reads_made length]. lia.
  - unfold completion_of, trace_of. cbn. lia.
Qed.

Lemma ingest_reads (reads : list read_result) :
  reads_made (trace_of (ingest reads))
  = reads_made (trace_of (read_loop [] reads)).
Proof.
  unfold ingest.
  destruct (read_loop [] reads) as [[a t] [| |e]]; try reflexivity.
  unfold trace_of. cbn [fst snd]. rewrite reads_made_app. simpl. lia.
Qed.

(** A payload without escape sequence is left as it is. *)
Lemma replace_escaped_newlines_plain (s : jsstring) :
  (forall a b, s <> a ++ ESCAPED_NL ++ b) ->
  replace_escaped_newlines s = s.
Proof.
  remember (length s) as n eqn:Hn.
  revert s Hn; induction n as [n IH] using lt_wf_ind; intros s Hn Hs.
  destruct s as [|c [|d s]]; try reflexivity.
  rewrite replace_escaped_newlines_cons2.
  destruct (N.eqb c BACKSLASH && N.eqb d LOWER_N) eqn:Hm.
  - apply andb_prop in Hm as [Hc Hd].
    apply N.eqb_eq in Hc, Hd. subst c d.
    now contradiction (Hs [] s).
  - f_equal. apply (IH (length (d :: s))); [simpl in *; lia | reflexivity|].
    intros a b Hab. apply (Hs (c :: a) b). cbn [app]. now f_equal.
Qed.

Lemma replace_escaped_newlines_length (s : jsstring) :
  length (replace_escaped_newlines s) <= length s.
Proof.
  remember (length s) as n eqn:Hn.
  revert s Hn; induction n as [n IH] using lt_wf_ind; intros s Hn.
  destruct s as [|c [|d s]]; subst n; try (simpl; lia).
  rewrite replace_escaped_newlines_cons2.
  destruct (N.eqb c BACKSLASH && N.eqb d LOWER_N).
  - pose proof (IH (length s) ltac:(simpl; lia) s eq_refl). simpl in *. lia.
  - pose proof (IH (length (d :: s)) ltac:(simpl; lia) (d :: s) eq_refl).
    simpl in *. lia.
Qed.

Lemma trimStart_blank (s : jsstring) :
  forallb isWhiteSpace s = true -> trimStart s = [].
Proof.
  induction s as [|c s IH]; [reflexivity|]. simpl.
  destruct (isWhiteSpace c); [exact IH | discriminate].
Qed.

Lemma trim_blank (s : jsstring) :
  forallb isWhiteSpace s = true -> trim s = [].
Proof. intros H. unfold trim. now rewrite (trimStart_blank s H). Qed.

Lemma word_starts_zero (s : jsstring) :
  word_starts true s = 0 <-> forallb isWhiteSpace s = true.
Proof.
  induction s as [|c s IH]; [now split|]. simpl.
  destruct (isWhiteSpace c); [exact IH|]. split; [lia | discriminate].
Qed.

(** Every value passed to the progress callback is a prefix of the final
    text. *)
Lemma snapshots_prefix (payloads : list jsstring) (acc v : jsstring) :
  In v (snapshots acc payloads) -> prefix_of v (acc ++ decoded payloads).
Proof.
  revert acc; induction payloads as [|p ps IH]; intros acc; [contradiction|].
  cbn [snapshots]. unfold decoded. cbn [map concat]. fold (decoded ps).
  rewrite app_assoc. intros [<-|Hin].
  - now exists (decoded ps).
  - now apply IH.
Qed.

End MoreLemmas.

(** ** Further properties of [handleSummarize] *)

(** X1. Whatever the fetch and the stream do, the handler sets the loading
    flag exactly twice: to [true] at the start and to [false] once, on the
    path by which it ends ([DONE] frame, end of stream or [catch]). *)
Theorem loading_flag_set_then_cleared (fetched : fetch_result) :
  loading_calls (trace_of (handleSummarize fetched)) = [true; false].
Proof.
  rewrite (proj1 (handleSummarize_trace fetched)). unfold after_resets.
  rewrite loading_calls_app, session_loading. reflexivity.
Qed.

(** X2. The cells of the page once the handler has completed do not depend
    on what they held before: [summary] is the accumulated text,
    [isLoading] is [false], and [error] is the message of the error thrown
    in the [try] block, or empty when it completed.  So the page shows the
    summary panel exactly when the text is not empty, and then as a finished
    summary (copy button, progress complete, disclaimer) whether the session
    ended in [DONE] or in [FAILED]; and it shows the error box exactly when
    the message is not empty. *)
Theorem page_after_handler (st : page_state) (fetched : fetch_result) :
  state_after_handler st fetched =
  {| summary := text_of (handleSummarize fetched);
     isLoading := false;
     error := match completion_of (try_block fetched) with
              | Throw err => message_of err
              | _ => []
              end |} /\
  summaryPanel (Home (state_after_handler st fetched)) =
  (if nonempty (text_of (handleSummarize fetched))
   then Some {| copyButton := true;
                streamingProgress :=
                  Some (length (text_of (handleSummarize fetched)), true);
                skeleton := false;
                formattedSummary :=
                  Some (text_of (handleSummarize fetched), false);
                disclaimer := true |}
   else None) /\
  errorBox (Home (state_after_handler st fetched)) =
  match completion_of (try_block fetched) with
  | Throw err =>
      if nonempty (message_of err) then Some (message_of err) else None
  | _ => None
  end.
Proof.
  assert (Hcells : state_after_handler st fetched =
                   {| summary := text_of (handleSummarize fetched);
                      isLoading := false;
                      error := match completion_of (try_block fetched) with
                               | Throw err => message_of err
                               | _ => []
                               end |}).
  { unfold state_after_handler.
    destruct (run_effects_cells (trace_of (handleSummarize fetched)) st)
      as (Hs & Hl & He).
    destruct (run_effects st (trace_of (handleSummarize fetched)))
      as [s l e]. cbn [summary isLoading error] in *. subst s l e.
    destruct (handleSummarize_trace fetched) as [-> ->].
    unfold after_resets. cbn [app progress_calls error_calls loading_calls].
    rewrite session_loading.
    rewrite (proj2 (session_text fetched)), (proj1 (session_text fetched)).
    rewrite session_error_calls, try_block_text, !last_cons_any.
    f_equal.
    destruct (completion_of (try_block fetched)); reflexivity. }
  split; [exact Hcells|]. rewrite Hcells.
  unfold Home, SummaryDisplay. cbn [summary isLoading error summaryPanel errorBox].
  split.
  - destruct (nonempty (text_of (handleSummarize fetched))); reflexivity.
  - destruct (completion_of (try_block fetched)); reflexivity.
Qed.

(** X3. An error sentinel followed by at most one code unit ([[ERROR]]
    alone, or [[ERROR]] and a space) carries the empty message: when it is
    reached the session ends in [FAILED] and the error callback is invoked,
    but with the empty text, so that the page shows no error box. *)
Theorem empty_error_message_is_silent
  (before : list jsstring) (chunk tail : jsstring)
  (payloads_before payloads_after : list jsstring)
  (later : list read_result) (st : page_state) :
  all_content (stream_payloads before) ->
  chunk_payloads chunk
    = payloads_before ++ (ERROR_SENTINEL ++ tail) :: payloads_after ->
  all_content payloads_before ->
  length tail <= 1 ->
  terminal_state (streaming (map Value before ++ Value chunk :: later))
    = FAILED /\
  error_calls
    (trace_of (session (streaming (map Value before ++ Value chunk :: later))))
    = [[]] /\
  errorBox
    (Home (state_after_handler st
             (streaming (map Value before ++ Value chunk :: later))))
    = None.
Proof.
  intros Hb Hc Hpb Ht.
  assert (Hd : is_content (ERROR_SENTINEL ++ tail) = false)
    by (unfold is_content; rewrite startsWith_app; apply andb_false_r).
  assert (Hthrow : completion_of
                     (try_block
                        (streaming (map Value before ++ Value chunk :: later)))
                   = Throw (ErrorObj [])).
  { unfold streaming, try_block. cbn [ok negb body].
    rewrite ingest_completion.
    rewrite (read_loop_until _ _ _ _ _ later Hb Hc Hpb Hd).
    rewrite completion_of_after. unfold on_payload.
    rewrite process_line_error.
    destruct tail as [|c [|d tail]]; [reflexivity | reflexivity|].
    simpl in Ht. lia. }
  split; [unfold terminal_state; now rewrite Hthrow|].
  split; [rewrite session_error_calls; now rewrite Hthrow|].
  unfold Home, state_after_handler. cbn [errorBox].
  destruct (run_effects_cells
              (trace_of
                 (handleSummarize
                    (streaming (map Value before ++ Value chunk :: later))))
              st) as (_ & _ & ->).
  destruct (handleSummarize_trace
              (streaming (map Value before ++ Value chunk :: later)))
    as [-> _].
  unfold after_resets. cbn [app error_calls].
  rewrite session_error_calls, Hthrow. reflexivity.
Qed.

Lemma empty_error_message_is_silent_witness :
  errorBox
    (Home (state_after_handler
             {| summary := lit "old"; isLoading := false;
                error := lit "old error" |}
             (streaming (map Value [frame (lit "partial")]
                           ++ Value (frame (ERROR_SENTINEL ++ lit " "))
                           :: []))))
  = None.
Proof.
  refine (proj2 (proj2 (empty_error_message_is_silent
            [frame (lit "partial")] (frame (ERROR_SENTINEL ++ lit " "))
            (lit " ") [] [] []
            {| summary := lit "old"; isLoading := false;
               error := lit "old error" |} _ _ _ _))).
  - repeat constructor.
  - reflexivity.
  - constructor.
  - simpl. lia.
Defined.

(** X4. Grouping the lines into events is immaterial: a chunk is processed
    exactly as if its text were split into lines only, each data line being
    handled in order whatever the blank lines around it. *)
Theorem blank_line_grouping_is_immaterial (acc chunk : jsstring) :
  process_chunk acc chunk = for_of process_line acc (split chunk NL).
Proof.
  rewrite process_chunk_payloads, chunk_payloads_lines.
  symmetry. apply for_lines_payloads.
Qed.

(** X5. The handler makes one read per chunk it takes and never reads past
    the end of the stream: when the loop is left by [break] it has made one
    read for each element of the stream and the one that reported [done];
    when it ends on a sentinel or a rejected read it has made at least one
    read and at most as many as the stream delivers. *)
Theorem reads_never_pass_the_end (reads : list read_result) :
  (completion_of (ingest reads) = Normal ->
   reads_made (trace_of (ingest reads)) = S (length reads)) /\
  (completion_of (ingest reads) <> Normal ->
   1 <= reads_made (trace_of (ingest reads)) <= length reads).
Proof.
  rewrite ingest_completion, ingest_reads.
  pose proof (read_loop_reads reads []) as H.
  destruct (completion_of (read_loop [] reads)); split; intros Hc;
    try discriminate; try exact H; now contradiction Hc.
Qed.

Lemma reads_never_pass_the_end_witness :
  reads_made
    (trace_of (ingest [Value (frame (lit "a")); Rejected NonError;
                       Value (frame (lit "b"))])) <= 3.
Proof.
  refine (proj2 (proj2 (reads_never_pass_the_end
                          [Value (frame (lit "a")); Rejected NonError;
                           Value (frame (lit "b"))]) _)).
  vm_compute. discriminate.
Defined.

(** X6. A carriage return is never stripped: for a frame whose lines end
    with CR LF, the payload handled is the payload followed by CR.  So
    [data: [DONE]] sent with CR LF line ends is not taken for the sentinel:
    [[DONE]] and the CR are appended to the text and the loop goes on. *)
Theorem carriage_return_stays_in_payload :
  (forall acc payload,
     ~ In LF payload ->
     process_chunk acc (DATA_PREFIX ++ payload ++ [CR; LF; CR; LF])
     = on_payload acc (payload ++ [CR])) /\
  (forall acc,
     process_chunk acc (DATA_PREFIX ++ DONE_SENTINEL ++ [CR; LF; CR; LF])
     = (acc ++ DONE_SENTINEL ++ [CR],
        [SetSummary (acc ++ DONE_SENTINEL ++ [CR])], Normal)).
Proof.
  assert (H : forall acc payload,
            ~ In LF payload ->
            process_chunk acc (DATA_PREFIX ++ payload ++ [CR; LF; CR; LF])
            = on_payload acc (payload ++ [CR])).
  { intros acc payload Hp.
    rewrite process_chunk_payloads, chunk_payloads_lines.
    replace (DATA_PREFIX ++ payload ++ [CR; LF; CR; LF])
      with ((DATA_PREFIX ++ payload ++ [CR]) ++ LF :: [CR] ++ LF :: [])
      by (rewrite <- !app_assoc; reflexivity).
    rewrite !split_NL_app, split_NL_line.
    - rewrite !data_payloads_app.
      unfold data_payloads at 1. cbn [filter].
      destruct (data_line_payload (payload ++ [CR])) as [-> E].
      cbn [map]. rewrite E.
      change (data_payloads (split [CR] NL)) with (@nil jsstring).
      change (data_payloads (split [] NL)) with (@nil jsstring).
      cbn [app for_of].
      destruct (on_payload acc (payload ++ [CR])) as [[a t] [| |e]];
        try reflexivity.
      unfold after, text_of, trace_of, completion_of. cbn [fst snd].
      now rewrite app_nil_r.
    - intros Hin. apply in_app_or in Hin as [Hin|Hin].
      + revert Hin. no_LF.
      + apply in_app_or in Hin as [Hin|Hin]; [now apply Hp|].
        revert Hin. no_LF. }
  split; [exact H|]. intros acc.
  rewrite (H acc DONE_SENTINEL) by no_LF.
  unfold on_payload. rewrite process_line_content by reflexivity.
  reflexivity.
Qed.

Lemma carriage_return_stays_in_payload_witness :
  process_chunk (lit "so far")
    (DATA_PREFIX ++ lit "[ERROR] x" ++ [CR; LF; CR; LF])
  = on_payload (lit "so far") (lit "[ERROR] x" ++ [CR]).
Proof.
  refine (proj1 carriage_return_stays_in_payload (lit "so far")
            (lit "[ERROR] x") _).
  no_LF.
Defined.

(** X7. Decoding is idempotent and never lengthens: a payload without
    backslash+n sequence is appended as it is, decoding a decoded text again
    changes nothing, and the decoded text is at most as long as the
    payload. *)
Theorem decoding_is_idempotent :
  (forall s,
     (forall a b, s <> a ++ ESCAPED_NL ++ b) ->
     replace_escaped_newlines s = s) /\
  (forall s,
     replace_escaped_newlines (replace_escaped_newlines s)
     = replace_escaped_newlines s) /\
  (forall s, length (replace_escaped_newlines s) <= length s).
Proof.
  split; [exact replace_escaped_newlines_plain|]. split.
  - intros s. apply replace_escaped_newlines_plain.
    intros a b. apply replace_escaped_newlines_done.
  - exact replace_escaped_newlines_length.
Qed.

Lemma decoding_is_idempotent_witness :
  replace_escaped_newlines (lit "no escape\here") = lit "no escape\here".
Proof.
  refine (proj1 decoding_is_idempotent (lit "no escape\here") _).
  intros a b H.
  assert (Hlen : length (lit "no escape\here")
                 = length (a ++ ESCAPED_NL ++ b)) by now rewrite H.
  rewrite !length_app in Hlen. cbn in Hlen.
  do 14 (destruct a as [|? a]; [discriminate H|]).
  simpl in Hlen. lia.
Defined.

(** ** Properties of the form, [SummaryForm.tsx] *)

(** X8. Submitting calls [onSummarize] exactly when the text is valid in the
    sense that enables the submit button, and then once, after the toast
    [Generating summary...], with the trimmed text: it has between 10 and
    50000 code units, neither starts nor ends with white space, and
    trimming it again changes nothing.  Otherwise the only effect besides
    [preventDefault] is one error toast. *)
Theorem submit_calls_onSummarize_iff_valid (maxCharsLocale text : jsstring) :
  (isTextValid text = true ->
   handleSubmit maxCharsLocale text =
     [PreventDefault; ToastSuccess GENERATING_MESSAGE;
      OnSummarize (trim text)] /\
   (minChars <= strlen (trim text) <= maxChars)%N /\
   trim (trim text) = trim text /\
   (forall c rest, trim text = c :: rest -> isWhiteSpace c = false) /\
   (forall init c, trim text = init ++ [c] -> isWhiteSpace c = false)) /\
  (isTextValid text = false ->
   handleSubmit maxCharsLocale text = [PreventDefault; ToastError TOO_SHORT_MESSAGE]
   \/ handleSubmit maxCharsLocale text =
        [PreventDefault; ToastError (too_long_message maxCharsLocale)]).
Proof.
  unfold isTextValid, handleSubmit. split; intros H.
  - apply andb_prop in H as [Hmin Hmax].
    apply N.leb_le in Hmin, Hmax.
    destruct (N.ltb_spec (strlen (trim text)) minChars) as [Hlt|_]; [lia|].
    destruct (N.ltb_spec maxChars (strlen (trim text))) as [Hlt|_]; [lia|].
    split; [reflexivity|]. split; [lia|].
    split; [apply trim_idempotent|]. split.
    + intros c rest. apply trim_head.
    + intros init c. apply trimEnd_last.
  - destruct (N.ltb_spec (strlen (trim text)) minChars) as [_|Hmin];
      [now left|].
    destruct (N.ltb_spec maxChars (strlen (trim text))) as [_|Hmax];
      [now right|].
    apply andb_false_iff in H as [H|H]; apply N.leb_gt in H; lia.
Qed.

Lemma submit_calls_onSummarize_iff_valid_witness :
  handleSubmit (lit "50,000")
    (lit "  This is a valid text input for testing.  ")
  = [PreventDefault; ToastSuccess GENERATING_MESSAGE;
     OnSummarize (lit "This is a valid text input for testing.")].
Proof.
  refine (proj1 (proj1 (submit_calls_onSummarize_iff_valid (lit "50,000")
            (lit "  This is a valid text input for testing.  ")) _)).
  reflexivity.
Defined.

(** X9. Whatever the user does to the form (typing, Clear, Load example
    text), the counter is the length of the text.  Hence the warning
    [minimum 10 characters required] is shown only for a text that is not
    valid and that a submission rejects as too short; a text rejected as too
    long is marked [aria-invalid]; the Clear button is there exactly when
    the counter is not zero; and after Load example text the text is
    valid. *)
Theorem form_counter_follows_text (actions : list form_action) :
  charCount (form_after actions) = strlen (text (form_after actions)) /\
  (minimumWarning (form_after actions) = true ->
   isTextValid (text (form_after actions)) = false /\
   forall maxCharsLocale,
     handleSubmit maxCharsLocale (text (form_after actions))
     = [PreventDefault; ToastError TOO_SHORT_MESSAGE]) /\
  (N.ltb maxChars (strlen (trim (text (form_after actions)))) = true ->
   ariaInvalid (form_after actions) = true) /\
  (clearButton (form_after actions) = true
   <-> (0 < charCount (form_after actions))%N) /\
  isTextValid (text (form_after (actions ++ [LoadExample]))) = true.
Proof.
  assert (Hinv : charCount (form_after actions)
                 = strlen (text (form_after actions))).
  { unfold form_after.
    destruct actions as [|a actions] using rev_ind; [reflexivity|].
    rewrite fold_left_app. cbn [fold_left]. now destruct a. }
  split; [exact Hinv|].
  unfold minimumWarning, ariaInvalid, clearButton. rewrite Hinv.
  pose proof (trim_length (text (form_after actions))) as Htrim.
  split; [|split; [|split]].
  - intros H. apply andb_prop in H as [Hlt _]. apply N.ltb_lt in Hlt.
    unfold isTextValid, handleSubmit.
    destruct (N.leb_spec minChars (strlen (trim (text (form_after actions)))))
      as [Hle|_]; [lia|].
    split; [reflexivity|]. intros loc.
    destruct (N.ltb_spec (strlen (trim (text (form_after actions)))) minChars)
      as [_|Hge]; [reflexivity | lia].
  - intros H. apply N.ltb_lt in H. apply N.ltb_lt. lia.
  - unfold strlen. destruct (text (form_after actions)); simpl; split;
      intros H; try discriminate; try reflexivity; lia.
  - unfold form_after. rewrite fold_left_app. cbn [fold_left form_step].
    vm_compute. reflexivity.
Qed.

Lemma form_counter_follows_text_witness :
  isTextValid (text (form_after [LoadExample; Clear; Change (lit "Short")]))
  = false.
Proof.
  refine (proj1 (proj1 (proj2 (form_counter_follows_text
            [LoadExample; Clear; Change (lit "Short")])) _)).
  reflexivity.
Defined.

(** X10. The counter and the validity do not look at the same text: the
    counter counts every code unit, the validity those of the trimmed text.
    So a text of 10 to 50000 code units that are all white space leaves the
    submit button disabled although no warning is shown and the field is
    not marked invalid; submitting it is rejected as too short. *)
Theorem blank_text_is_rejected_without_warning
  (maxCharsLocale newText : jsstring) :
  forallb isWhiteSpace newText = true ->
  (minChars <= strlen newText <= maxChars)%N ->
  submitDisabled (handleTextChange newText) false = true /\
  minimumWarning (handleTextChange newText) = false /\
  ariaInvalid (handleTextChange newText) = false /\
  handleSubmit maxCharsLocale newText
    = [PreventDefault; ToastError TOO_SHORT_MESSAGE].
Proof.
  intros Hblank [Hmin Hmax].
  unfold submitDisabled, minimumWarning, ariaInvalid, isTextValid,
    handleSubmit, handleTextChange. cbn [text charCount].
  rewrite (trim_blank newText Hblank). repeat split.
  - destruct (N.ltb_spec (strlen newText) minChars); [lia|reflexivity].
  - apply N.ltb_ge. exact Hmax.
Qed.

Lemma blank_text_is_rejected_without_warning_witness :
  submitDisabled (handleTextChange (lit "            ")) false = true.
Proof.
  refine (proj1 (blank_text_is_rejected_without_warning (lit "50,000")
                   (lit "            ") _ _)).
  - reflexivity.
  - vm_compute. split; discriminate.
Defined.

(** ** Properties of the word counter, [SummaryDisplay.tsx] *)

(** X11. The expression of line 19 gives the number of words of the
    summary, a word being a maximal run of code units that are not white
    space: the white space at both ends and the width of the runs between
    words do not matter, and the count is zero exactly for a summary made of
    white space only. *)
Theorem count_words_counts_words (summary : jsstring) :
  count_words summary = word_starts true summary /\
  (count_words summary = 0 <-> forallb isWhiteSpace summary = true) /\
  count_words (trim summary) = count_words summary.
Proof.
  split; [apply count_words_word_starts|]. split.
  - rewrite count_words_word_starts. apply word_starts_zero.
  - rewrite !count_words_word_starts. unfold trim.
    now rewrite word_starts_trimEnd, word_starts_trimStart.
Qed.

(** X12. While a summary streams in, the word counter never goes down:
    appending text keeps or raises the count, by at most the words of what
    is appended, so the counts of the successive values passed to the
    progress callback never decrease.  Whatever subset of these values (and
    of the reset to the empty summary) the display gets to see before the
    final text, the counter ends as the number of words of the final text,
    except when that text is empty: then the counter is left as it was, the
    effect skipping the empty summary. *)
Theorem word_counter_follows_stream :
  (forall x y,
     count_words x <= count_words (x ++ y) <= count_words x + count_words y) /\
  (forall reads,
     nondecreasing 0
       (map count_words (progress_calls (trace_of (ingest reads))))) /\
  (forall reads seen wordsGenerated,
     Forall (fun v => v = [] \/
                      In v (progress_calls (trace_of (ingest reads)))) seen ->
     fold_left words_effect (seen ++ [text_of (ingest reads)]) wordsGenerated
     = if nonempty (text_of (ingest reads))
       then count_words (text_of (ingest reads))
       else wordsGenerated).
Proof.
  split; [exact count_words_app|]. split.
  - intros reads. rewrite (proj1 (ingest_progress reads)).
    rewrite (proj1 (read_loop_progress reads [])).
    generalize (content_prefix
                  (stream_payloads (chunks_before_rejection reads))).
    intros ps. change 0 with (count_words []). generalize (@nil code_unit).
    induction ps as [|p ps IH]; intros acc; [exact I|].
    cbn [snapshots map nondecreasing]. split; [|apply IH].
    apply count_words_app.
  - intros reads seen w Hseen. rewrite fold_left_app. cbn [fold_left].
    unfold words_effect at 1.
    destruct (nonempty (text_of (ingest reads))) eqn:Hne; [reflexivity|].
    assert (Hempty : text_of (ingest reads) = [])
      by (destruct (text_of (ingest reads)); [reflexivity|discriminate]).
    assert (Hall : Forall (fun v => v = []) seen).
    { rewrite Forall_forall in *. intros v Hv.
      destruct (Hseen v Hv) as [->|Hin]; [reflexivity|].
      rewrite (proj1 (ingest_progress reads)) in Hin.
      rewrite (proj1 (read_loop_progress reads [])) in Hin.
      apply snapshots_prefix in Hin. destruct Hin as [c Hc].
      rewrite (proj2 (ingest_progress reads)) in Hempty.
      rewrite (proj2 (read_loop_progress reads [])) in Hempty.
      rewrite Hempty in Hc. symmetry in Hc.
      now apply app_eq_nil in Hc as [-> _]. }
    clear Hseen. induction Hall as [|v seen -> _ IH]; [reflexivity|].
    exact IH.
Qed.

Lemma word_counter_follows_stream_witness :
  fold_left words_effect
    ([[]; lit "This is "]
       ++ [text_of (ingest [Value (frame (lit "This is "));
                            Value (frame (lit "a test"))])]) 7
  = if nonempty (text_of (ingest [Value (frame (lit "This is "));
                                  Value (frame (lit "a test"))]))
    then count_words (text_of (ingest [Value (frame (lit "This is "));
                                       Value (frame (lit "a test"))]))
    else 7.
Proof.
  refine (proj2 (proj2 word_counter_follows_stream)
            [Value (frame (lit "This is ")); Value (frame (lit "a test"))]
            [[]; lit "This is "] 7 _).
  constructor; [now left|]. constructor; [|constructor].
  right. vm_compute. now left.
Defined.

(** ** The order of the effects of a session *)

Section OrderLemmas.

Lemma for_payloads_order (payloads : list jsstring) (acc : jsstring) :
  exists t,
    trace_of (for_of on_payload acc payloads)
    = t ++ map SetIsLoading
             (loading_on (completion_of (for_of on_payload acc payloads)))
    /\ loading_calls t = [].
Proof.
  destruct (content_prefix_split payloads) as [Hall|(d & r & Hsplit & Hd)].
  - assert (Hc : all_content payloads)
      by (rewrite Hall; apply content_prefix_all).
    rewrite (for_payloads_content _ acc Hc).
    exists (map SetSummary (snapshots acc payloads)).
    split; [symmetry; apply app_nil_r | apply loading_calls_SetSummary].
  - pose proof (content_prefix_all payloads) as Hc.
    rewrite Hsplit, (for_payloads_sentinel _ _ _ _ Hc Hd).
    exists (map SetSummary (snapshots acc (content_prefix payloads))).
    split; [|apply loading_calls_SetSummary].
    rewrite trace_of_after, completion_of_after.
    destruct (on_payload_sentinel
                (acc ++ decoded (content_prefix payloads)) _ Hd)
      as [->|[e ->]]; reflexivity.
Qed.

Lemma read_loop_order (reads : list read_result) (acc : jsstring) :
  exists t,
    trace_of (read_loop acc reads)
    = t ++ map SetIsLoading
             (loading_on (completion_of (read_loop acc reads)))
    /\ loading_calls t = [].
Proof.
  revert acc; induction reads as [|[chunk|err] reads IH]; intros acc.
  - now exists [ReaderRead].
  - cbn [read_loop].
    destruct (for_payloads_order (chunk_payloads chunk) acc) as (t & Ht & Hl).
    rewrite <- process_chunk_payloads in Ht.
    destruct (process_chunk acc chunk) as [[a t0] c].
    unfold trace_of, completion_of in Ht. cbn [fst snd] in Ht. subst t0.
    destruct c as [| |e].
    + destruct (IH a) as (t' & Ht' & Hl').
      rewrite trace_of_after, completion_of_after, Ht'.
      cbn [loading_on map]. rewrite app_nil_r.
      exists (ReaderRead :: t ++ t'). split.
      * cbn [app]. now rewrite app_assoc.
      * cbn [loading_calls]. now rewrite loading_calls_app, Hl, Hl'.
    + exists (ReaderRead :: t). now split.
    + exists (ReaderRead :: t). now split.
  - now exists [ReaderRead].
Qed.

(** The effects of a session: effects that touch neither the loading flag
    nor the error, then [setIsLoading(false)], then no progress callback. *)
Lemma session_order (fetched : fetch_result) :
  exists t closing,
    trace_of (session fetched) = t ++ SetIsLoading false :: closing /\
    loading_calls t = [] /\ error_calls t = [] /\
    progress_calls closing = [].
Proof.
  assert (Htry : exists t,
            trace_of (try_block fetched)
            = t ++ match completion_of (try_block fetched) with
                   | Throw _ => []
                   | _ => [SetIsLoading false]
                   end
            /\ loading_calls t = []).
  { destruct fetched as [err|[o j b]]; [now exists []|].
    unfold try_block. cbn [ok json body].
    destruct o; cbn [negb]; [|destruct j as [err|[detail|]]; now exists []].
    destruct b as [reads|]; [|now exists []].
    unfold ingest. destruct (read_loop_order reads []) as (t & Ht & Hl).
    destruct (read_loop [] reads) as [[a t0] c].
    unfold trace_of, completion_of in *. cbn [fst snd] in *. subst t0.
    destruct c as [| |e]; cbn [loading_on map] in *; exists t;
      rewrite ?app_nil_r; now split. }
  destruct Htry as (t & Ht & Hl).
  pose proof (try_block_errors fetched) as He. rewrite Ht in He.
  rewrite error_calls_app in He. apply app_eq_nil in He as [He _].
  unfold session.
  destruct (try_block fetched) as [[a t0] c].
  unfold trace_of, completion_of in *. cbn [fst snd] in *. subst t0.
  destruct c as [| |e].
  - exists t, []. now repeat split.
  - exists t, []. now repeat split.
  - exists t, [SetError (message_of e); ConsoleError e].
    rewrite app_nil_r. now repeat split.
Qed.

End OrderLemmas.

(** X13. Every call of [setSummary], the reset and each progress callback,
    is made while the loading flag is on and the error is empty, whatever
    the cells held before the handler started: the panel then shows the
    value as a summary being streamed, without copy button nor disclaimer,
    and no error box; nothing is passed to [setSummary] once the flag has
    been cleared. *)
Theorem progress_is_shown_as_streaming
  (st : page_state) (fetched : fetch_result)
  (t1 t2 : list effect) (v : jsstring) :
  trace_of (handleSummarize fetched) = t1 ++ SetSummary v :: t2 ->
  run_effects st (t1 ++ [SetSummary v])
    = {| summary := v; isLoading := true; error := [] |} /\
  Home (run_effects st (t1 ++ [SetSummary v])) =
    {| errorBox := None;
       summaryPanel :=
         Some {| copyButton := false;
                 streamingProgress := Some (length v, false);
                 skeleton := negb (nonempty v);
                 formattedSummary :=
                   if nonempty v then Some (v, true) else None;
                 disclaimer := false |} |}.
Proof.
  intros Htrace.
  assert (Hcells : run_effects st (t1 ++ [SetSummary v])
                   = {| summary := v; isLoading := true; error := [] |}).
  { destruct (session_order fetched) as (t & closing & Hs & Hl & He & Hp).
    rewrite (proj1 (handleSummarize_trace fetched)), Hs in Htrace.
    unfold after_resets in Htrace.
    assert (Hpre : exists k,
              [SetIsLoading true; SetError []; SetSummary []] ++ t
              = t1 ++ SetSummary v :: k).
    { rewrite app_assoc in Htrace. symmetry in Htrace.
      apply app_eq_app in Htrace as [l [[H1 H2]|[H1 H2]]].
      - destruct l as [|x l].
        + rewrite app_nil_r in H1. subst t1. discriminate H2.
        + injection H2 as <- H2.
          assert (Hin : In v (progress_calls closing)).
          { rewrite H2, progress_calls_app. apply in_or_app. right.
            now left. }
          rewrite Hp in Hin. contradiction.
      - destruct l as [|x l].
        + rewrite app_nil_r in H1. discriminate H2.
        + injection H2 as -> H2. now exists l. }
    destruct Hpre as [k Hk].
    destruct (run_effects_cells (t1 ++ [SetSummary v]) st)
      as (Hsum & Hload & Herr).
    destruct (run_effects st (t1 ++ [SetSummary v])) as [s l e].
    cbn [summary isLoading error] in *. subst s l e.
    rewrite progress_calls_app, loading_calls_app, error_calls_app.
    cbn [progress_calls loading_calls error_calls]. rewrite !app_nil_r.
    assert (Hlk : loading_calls t1 ++ loading_calls (SetSummary v :: k)
                  = [true])
      by (rewrite <- loading_calls_app, <- Hk; cbn; now rewrite Hl).
    assert (Hek : error_calls t1 ++ error_calls (SetSummary v :: k) = [[]])
      by (rewrite <- error_calls_app, <- Hk; cbn; now rewrite He).
    destruct t1 as [|e1 [|e2 t1]].
    - discriminate Hk.
    - discriminate Hk.
    - cbn [app] in Hk. injection Hk as <- <- Hk.
      cbn [loading_calls error_calls app] in *.
      injection Hlk as Hlk. injection Hek as Hek.
      apply app_eq_nil in Hlk as [-> _]. apply app_eq_nil in Hek as [-> _].
      f_equal. now rewrite last_last. }
  split; [exact Hcells|]. rewrite Hcells.
  unfold Home, SummaryDisplay. cbn [summary isLoading error].
  destruct (nonempty v); reflexivity.
Qed.

Lemma progress_is_shown_as_streaming_witness :
  run_effects {| summary := lit "old"; isLoading := false;
                 error := lit "old error" |}
    ([SetIsLoading true; SetError []; SetSummary []; ReaderRead]
       ++ [SetSummary (lit "Hi")])
  = {| summary := lit "Hi"; isLoading := true; error := [] |}.
Proof.
  refine (proj1 (progress_is_shown_as_streaming
            {| summary := lit "old"; isLoading := false;
               error := lit "old error" |}
            (streaming [Value (frame (lit "Hi"));
                        Value (frame API_QUOTA_PAYLOAD)])
            [SetIsLoading true; SetError []; SetSummary []; ReaderRead]
            [ReaderRead; SetIsLoading false; SetError API_QUOTA_MESSAGE;
             ConsoleError (ErrorObj API_QUOTA_MESSAGE)]
            (lit "Hi") _)).
  reflexivity.
Defined.
